(** * xclim.locales: internationalisation of indicator metadata

    A shallow embedding of [xclim/locales/__init__.py] and of the part of
    the Python runtime it relies on, followed by the properties of the
    locale resolver, the active-locale registry, the translatable string
    and the attribute extractor. *)

From Stdlib Require Import String Ascii List ZArith QArith Lia Lqa.
From stdpp Require Import base option gmap strings list fin_maps.

Import ListNotations.
Local Open Scope string_scope.
Local Open Scope list_scope.

(** ** Python prelude *)

(** *** Strings *)

(** [s.split(sep)] for a one-character separator: never empty. *)
Fixpoint split (sep : ascii) (s : string) : list string :=
  match s with
  | EmptyString => [EmptyString]
  | String c s' =>
      if Ascii.eqb c sep then EmptyString :: split sep s'
      else match split sep s' with
           | h :: t => String c h :: t
           | [] => [String c EmptyString]
           end
  end.

(** [s.split(sep)[0]]; the list is never empty, see [split_nonempty]. *)
Definition split_head (sep : ascii) (s : string) : string :=
  match split sep s with
  | h :: _ => h
  | [] => EmptyString
  end.

(** [s.startswith(p)] *)
Definition startswith (p s : string) : bool := String.prefix p s.

(** [s.endswith(p)] *)
Fixpoint endswith (p s : string) : bool :=
  String.eqb s p ||
  match s with
  | EmptyString => false
  | String _ s' => endswith p s'
  end.

(** [s[:-1]] *)
Fixpoint drop_last (s : string) : string :=
  match s with
  | EmptyString => EmptyString
  | String c EmptyString => EmptyString
  | String c s' => String c (drop_last s')
  end.

(** [s[1:-1]] *)
Definition slice_1_m1 (s : string) : string :=
  match s with
  | EmptyString => EmptyString
  | String _ s' => drop_last s'
  end.

(** [x in l] for a list of strings *)
Definition str_in (x : string) (l : list string) : bool :=
  existsb (String.eqb x) l.


(** [sep not in s] *)
Fixpoint free_of (sep : ascii) (s : string) : bool :=
  match s with
  | EmptyString => true
  | String c s' => negb (Ascii.eqb c sep) && free_of sep s'
  end.

(** *** Ordered dictionaries

    A Python [dict] keeps its keys in insertion order; assigning to a key
    that is present replaces the value in place, a new key goes last. *)

Fixpoint dict_get {V : Type} (k : string) (d : list (string * V)) : option V :=
  match d with
  | [] => None
  | (k', v) :: d' => if String.eqb k k' then Some v else dict_get k d'
  end.

(** [d[k] = v] *)
Fixpoint dict_set {V : Type} (k : string) (v : V) (d : list (string * V))
  : list (string * V) :=
  match d with
  | [] => [(k, v)]
  | (k', v') :: d' =>
      if String.eqb k k' then (k', v) :: d' else (k', v') :: dict_set k v d'
  end.

(** [d.update(d2)] *)
Definition dict_update {V : Type} (d d2 : list (string * V)) : list (string * V) :=
  fold_left (fun acc kv => dict_set (fst kv) (snd kv) acc) d2 d.

(** [{k: v for k, v in pairs}] *)
Definition dict_of_pairs {V : Type} (pairs : list (string * V)) : list (string * V) :=
  dict_update [] pairs.

(** ** Data model *)

(** The content of a locale file once parsed: the reserved entry
    ["attrs_mapping"] (absent when [None]) and the entries of the
    indicators.  An indicator key always contains a dot, so it never is
    ["attrs_mapping"]. *)
Record locale_dict : Type := LocaleDict {
  attrs_mapping : option (gmap string (list string));
  indicators : gmap string (gmap string string)
}.

(** Second component of a [(tag, dict)] or [(tag, path)] pair. *)
Inductive locale_source : Type :=
| FromDict (d : locale_dict)
| FromPath (path : string).

(** What the functions of the module accept as a locale. *)
Inductive locale_spec : Type :=
| Tag (tag : string)
| Pair (tag : string) (src : locale_source).

(** What [json.load] makes of a file. *)
Inductive file_content : Type :=
| Json (d : locale_dict)
| Malformed.

(** The outside world the module reads: the directory of the package, in
    the order [resource_listdir] lists it, and the regular files of the
    file system by path. *)
Record Env : Type := {
  pkg : list (string * file_content);
  fs : list (string * file_content)
}.

(** [Path(p).is_file()] *)
Definition is_file (e : Env) (p : string) : bool :=
  existsb (fun f => String.eqb p (fst f)) (fs e).

(** *** Exceptions *)

Inductive exn : Type :=
| UnavailableLocaleError (locale : option locale_spec)
| ValueError (msg : string)
| KeyError (key : string)
| IndexError
| AttributeError (name : string)
| FileNotFoundError (path : string)
| JSONDecodeError
| NotModelled (what : string).

Inductive res (A : Type) : Type :=
| Ok (a : A)
| Raise (e : exn).
Arguments Ok {A} a.
Arguments Raise {A} e.

Definition res_bind {A B : Type} (r : res A) (k : A -> res B) : res B :=
  match r with
  | Ok a => k a
  | Raise e => Raise e
  end.

(** [l[i]] *)
Definition item {A : Type} (l : list A) (i : nat) : res A :=
  match nth_error l i with
  | Some a => Ok a
  | None => Raise IndexError
  end.

(** The text of [UnavailableLocaleError(locale)], for [None] and for a
    plain tag; the rendering of a pair goes through [repr] and is left
    out. *)
Definition UnavailableLocaleError_message (locale : option locale_spec)
  : option string :=
  let shown :=
    match locale with
    | None => Some "None"
    | Some (Tag t) => Some t
    | Some (Pair _ _) => None
    end in
  match shown with
  | Some s =>
      Some ("Locale " +:+ s +:+
            " not available. Use `xclim.locales.list_locales()` to see available languages.")
  | None => None
  end.

(** ** State

    [LOCALES] is the registry of the module.  [log] holds what a call
    leaves behind besides its result: the warnings issued, and one entry
    per call of [get_local_dict]. *)

Inductive event : Type :=
| Lookup (locale : locale_spec)
| Warning (ind_name : string) (locale : locale_spec).

Record World : Type := {
  env : Env;
  LOCALES : list locale_spec;
  log : list event
}.

Definition M (A : Type) : Type := World -> res A * World.

Definition ret {A : Type} (a : A) : M A := fun w => (Ok a, w).

Definition raise {A : Type} (e : exn) : M A := fun w => (Raise e, w).

Definition bind {A B : Type} (c : M A) (k : A -> M B) : M B :=
  fun w =>
    match c w with
    | (Ok a, w') => k a w'
    | (Raise e, w') => (Raise e, w')
    end.

Definition lift {A : Type} (r : res A) : M A := fun w => (r, w).

Definition get_world : M World := fun w => (Ok w, w).

Definition logged (w : World) (ev : event) : World :=
  {| env := env w; LOCALES := LOCALES w; log := log w ++ [ev] |}.

Definition with_registry (w : World) (locales : list locale_spec) : World :=
  {| env := env w; LOCALES := locales; log := log w |}.

Definition log_event (ev : event) : M unit := fun w => (Ok tt, logged w ev).

(** [LOCALES[:] = locales] *)
Definition assign_LOCALES (locales : list locale_spec) : M unit :=
  fun w => (Ok tt, with_registry w locales).

Declare Scope py_scope.
Delimit Scope py_scope with py.
Notation "x <- c ;; k" := (bind c (fun x => k))
  (at level 100, c at next level, right associativity) : py_scope.
Notation "c ;;; k" := (bind c (fun _ => k))
  (at level 100, right associativity) : py_scope.
Local Open Scope py_scope.

(** [for x in l: body(x)] *)
Fixpoint for_each {A : Type} (l : list A) (body : A -> M unit) : M unit :=
  match l with
  | [] => ret tt
  | x :: l' => body x ;;; for_each l' body
  end.

(** [for x in l: acc = body(acc, x)] *)
Fixpoint for_fold {A S : Type} (l : list A) (body : S -> A -> M S) (acc : S) : M S :=
  match l with
  | [] => ret acc
  | x :: l' => acc' <- body acc x ;; for_fold l' body acc'
  end.

(** ** The module *)

Definition TRANSLATABLE_ATTRS : list string :=
  ["long_name"; "description"; "comment"; "title"].

(** *** list_locales *)

Definition list_locales (e : Env) : list string :=
  map (split_head ".")
      (List.filter (fun locale => endswith ".json" locale) (map fst (pkg e))).

(** *** get_best_locale *)

Definition get_best_locale (e : Env) (locale : string) : res (option string) :=
  let available := list_locales e in
  if str_in locale available then Ok (Some locale)
  else
    let locale := split_head "-" locale in
    if str_in locale available then Ok (Some locale)
    else if str_in locale (map (split_head "-") available) then
      res_bind
        (item (List.filter (fun av => String.eqb (split_head "-" av) locale) available) 0)
        (fun av => Ok (Some av))
    else Ok None.

(** *** get_local_dict *)

(** [json.load(pkg_resources.resource_stream(__package__, name))] and
    [json.load(open(path))] *)
Definition load_json (files : list (string * file_content)) (name : string)
  : res locale_dict :=
  match dict_get name files with
  | None => Raise (FileNotFoundError name)
  | Some Malformed => Raise JSONDecodeError
  | Some (Json d) => Ok d
  end.

Definition get_local_dict (locale : locale_spec) : M (string * locale_dict) :=
  log_event (Lookup locale) ;;;
  w <- get_world ;;
  match locale with
  | Tag t =>
      locale <- lift (get_best_locale (env w) t) ;;
      match locale with
      | None => raise (UnavailableLocaleError (Tag <$> locale))
      | Some l =>
          d <- lift (load_json (pkg (env w)) (l +:+ ".json")) ;;
          ret (l, d)
      end
  | Pair t (FromDict d) => ret (t, d)
  | Pair t (FromPath p) =>
      d <- lift (load_json (fs (env w)) p) ;;
      ret (t, d)
  end.

(** *** Values passed to [str.format] *)

(** A keyword argument is a [str], or some other object, kept as the text
    [str.format] produces for it. *)
Inductive pyval : Type :=
| PStr (s : string)
| PObj (shown : string).

Definition shown_as (v : pyval) : string :=
  match v with
  | PStr s => s
  | PObj s => s
  end.

(** *** str.format

    The replacement fields covered are [{}], [{0}], [{name}], with the
    escapes [{{] and [}}]; conversions, format specifications, attribute
    and index access end in [NotModelled]. *)

Inductive numbering : Type :=
| Unset
| Automatic (next : nat)
| Manual.

Inductive scan : Type :=
| InText
| AfterOpen
| InField (name : string)
| AfterClose.

Definition is_digit (c : ascii) : bool :=
  (48 <=? nat_of_ascii c)%nat && (nat_of_ascii c <=? 57)%nat.

Fixpoint all_chars (p : ascii -> bool) (s : string) : bool :=
  match s with
  | EmptyString => true
  | String c s' => p c && all_chars p s'
  end.

Fixpoint decimal (acc : nat) (s : string) : nat :=
  match s with
  | EmptyString => acc
  | String c s' => decimal (10 * acc + (nat_of_ascii c - 48)) s'
  end.

Definition plain_name_char (c : ascii) : bool :=
  negb (Ascii.eqb c "!" || Ascii.eqb c ":" || Ascii.eqb c "." || Ascii.eqb c "[")%char.

(** The value a replacement field stands for, and the numbering after it. *)
Definition field_value (name : string) (mode : numbering)
    (args : list pyval) (kwargs : list (string * pyval))
  : res (pyval * numbering) :=
  match name with
  | EmptyString =>
      match mode with
      | Manual =>
          Raise (ValueError
            "cannot switch from manual field specification to automatic field numbering")
      | Unset => res_bind (item args 0) (fun v => Ok (v, Automatic 1))
      | Automatic n => res_bind (item args n) (fun v => Ok (v, Automatic (S n)))
      end
  | _ =>
      if negb (all_chars plain_name_char name) then Raise (NotModelled "field")
      else if all_chars is_digit name then
        match mode with
        | Automatic _ =>
            Raise (ValueError
              "cannot switch from automatic field numbering to manual field specification")
        | _ => res_bind (item args (decimal 0 name)) (fun v => Ok (v, Manual))
        end
      else
        match dict_get name kwargs with
        | Some v => Ok (v, mode)
        | None => Raise (KeyError name)
        end
  end.

Fixpoint str_format_from (s : string) (st : scan) (mode : numbering) (out : string)
    (args : list pyval) (kwargs : list (string * pyval)) : res string :=
  match s with
  | EmptyString =>
      match st with
      | InText => Ok out
      | AfterOpen => Raise (ValueError "Single '{' encountered in format string")
      | InField _ => Raise (ValueError "expected '}' before end of string")
      | AfterClose => Raise (ValueError "Single '}' encountered in format string")
      end
  | String c s' =>
      match st with
      | InText =>
          if Ascii.eqb c "{" then str_format_from s' AfterOpen mode out args kwargs
          else if Ascii.eqb c "}" then str_format_from s' AfterClose mode out args kwargs
          else str_format_from s' InText mode (out +:+ String c EmptyString) args kwargs
      | AfterOpen =>
          if Ascii.eqb c "{" then str_format_from s' InText mode (out +:+ "{") args kwargs
          else if Ascii.eqb c "}" then
            match field_value EmptyString mode args kwargs with
            | Ok (v, mode') =>
                str_format_from s' InText mode' (out +:+ shown_as v) args kwargs
            | Raise e => Raise e
            end
          else str_format_from s' (InField (String c EmptyString)) mode out args kwargs
      | InField name =>
          if Ascii.eqb c "}" then
            match field_value name mode args kwargs with
            | Ok (v, mode') =>
                str_format_from s' InText mode' (out +:+ shown_as v) args kwargs
            | Raise e => Raise e
            end
          else if Ascii.eqb c "{" then Raise (ValueError "unexpected '{' in field name")
          else str_format_from s' (InField (name +:+ String c EmptyString)) mode out
                 args kwargs
      | AfterClose =>
          if Ascii.eqb c "}" then str_format_from s' InText mode (out +:+ "}") args kwargs
          else Raise (ValueError "Single '}' encountered in format string")
      end
  end.

(** The builtin [str.format], applied to positional and keyword arguments. *)
Definition str_format (s : string) (args : list pyval) (kwargs : list (string * pyval))
  : res string :=
  str_format_from s InText Unset EmptyString args kwargs.

(** *** TranslatableStr *)

Module TranslatableStr.

(** [data] is the string kept by [UserString]; [translations] may be
    [None]. *)
Record t : Type := Make {
  data : string;
  translations : option (gmap string (list string));
  modifiers : list string
}.

Definition __init__ (text : string)
    (translations : option (gmap string (list string)))
    (modifiers : list string) : t :=
  {| data := text; translations := translations; modifiers := modifiers |}.

(** The test of lines 191-195 and, when it passes, the entry
    [self.translations[val[1:-1]]]. *)
Definition translations_of (tr : gmap string (list string)) (val : pyval)
  : option (list string) :=
  match val with
  | PStr s => if startswith "{" s then tr !! slice_1_m1 s else None
  | PObj _ => None
  end.

(** The dictionary given to [kwargs.update] for one keyword. *)
Definition expansion (self : t) (key : string) (values : list string)
  : list (string * pyval) :=
  dict_of_pairs
    (map (fun mv => (key +:+ fst mv, PStr (snd mv)))
         (combine (modifiers self) values)).

(** One turn of the loop over [kwargs.copy().items()]. *)
Definition format_step (self : t) (tr : gmap string (list string))
    (kwargs : list (string * pyval)) (kv : string * pyval)
  : list (string * pyval) :=
  match translations_of tr (snd kv) with
  | Some values => dict_update kwargs (expansion self (fst kv) values)
  | None => kwargs
  end.

(** The keyword arguments handed to [str.format]. *)
Definition format_kwargs (self : t) (kwargs : list (string * pyval))
  : list (string * pyval) :=
  match translations self with
  | Some tr => fold_left (format_step self tr) kwargs kwargs
  | None => kwargs
  end.

Definition format (self : t) (args : list pyval) (kwargs : list (string * pyval))
  : res string :=
  str_format (data self) args (format_kwargs self kwargs).

End TranslatableStr.

(** *** get_local_attrs *)

(** What [get_local_attrs] reads of an indicator; [attr] is [None] where
    [getattr] raises. *)
Record Indicator : Type := {
  __module__ : string;
  identifier : string;
  attr : string -> option string
}.

Definition getattr (indicator : Indicator) (name : string) : res string :=
  match attr indicator name with
  | Some v => Ok v
  | None => Raise (AttributeError name)
  end.

(** The body of the loop over [TRANSLATABLE_ATTRS]. *)
Definition get_local_attrs_name (indicator : Indicator) (names : option (list string))
    (fill_missing : bool) (loc_name : string) (loc_dict : locale_dict)
    (local_attrs : gmap string string)
    (attrs : list (string * TranslatableStr.t)) (name : string)
  : M (list (string * TranslatableStr.t)) :=
  if match names with None => true | Some ns => str_in name ns end
     && (fill_missing || bool_decide (is_Some (local_attrs !! name)))
  then
    ind_dict <- lift (match attrs_mapping loc_dict with
                      | Some m => Ok m
                      | None => Raise (KeyError "attrs_mapping")
                      end) ;;
    let mods := default [EmptyString] (ind_dict !! "modifiers") in
    let ind_dict := delete "modifiers" ind_dict in
    fallback <- lift (getattr indicator name) ;;
    ret (dict_set (name +:+ loc_name)
           (TranslatableStr.__init__ (default fallback (local_attrs !! name))
              (Some ind_dict) mods)
           attrs)
  else ret attrs.

(** The body of the loop over the locales. *)
Definition get_local_attrs_locale (indicator : Indicator) (names : option (list string))
    (fill_missing append_locale_name : bool)
    (attrs : list (string * TranslatableStr.t)) (locale : locale_spec)
  : M (list (string * TranslatableStr.t)) :=
  found <- get_local_dict locale ;;
  let loc_dict := snd found in
  let loc_name := if append_locale_name then "_" +:+ fst found else EmptyString in
  sub <- lift (item (split "." (__module__ indicator)) 1) ;;
  let ind_name := sub +:+ "." +:+ identifier indicator in
  match indicators loc_dict !! ind_name with
  | None => log_event (Warning ind_name locale) ;;; ret attrs
  | Some local_attrs =>
      for_fold TRANSLATABLE_ATTRS
        (get_local_attrs_name indicator names fill_missing loc_name loc_dict local_attrs)
        attrs
  end.

Definition get_local_attrs (indicator : Indicator) (locales : list locale_spec)
    (names : option (list string)) (fill_missing append_locale_name : bool)
  : M (list (string * TranslatableStr.t)) :=
  w <- get_world ;;
  let locales := match locales with [] => LOCALES w | _ => locales end in
  if negb append_locale_name && Nat.ltb 1 (length locales) then
    raise (ValueError
      "`append_locale_name` cannot be False if multiple locales are requested.")
  else
    for_fold locales
      (get_local_attrs_locale indicator names fill_missing append_locale_name) [].

(** *** set_locales *)

(** The condition of lines 295-299. *)
Definition unavailable (e : Env) (locale : locale_spec) : res bool :=
  match locale with
  | Tag t =>
      res_bind (get_best_locale e t)
        (fun best => Ok (match best with None => true | Some _ => false end))
  | Pair _ (FromPath p) => Ok (negb (is_file e p))
  | Pair _ (FromDict _) => Ok false
  end.

(** The body of the loop of [set_locales]. *)
Definition set_locales_check (locale : locale_spec) : M unit :=
  w <- get_world ;;
  bad <- lift (unavailable (env w) locale) ;;
  if bad then raise (UnavailableLocaleError (Some locale)) else ret tt.

Definition set_locales (locales : list locale_spec) : M unit :=
  for_each locales set_locales_check ;;;
  assign_LOCALES locales.

(** *** metadata_locale *)

Module metadata_locale.

(** [old_locales] is set by [__enter__]. *)
Record t : Type := Make {
  locales : list locale_spec;
  old_locales : option (list locale_spec)
}.

Definition __init__ (locales : list locale_spec) : t :=
  {| locales := locales; old_locales := None |}.

Definition __enter__ (self : t) : M t :=
  w <- get_world ;;
  let self := {| locales := locales self; old_locales := Some (LOCALES w) |} in
  set_locales (locales self) ;;;
  ret self.

Definition __exit__ (self : t) : M unit :=
  match old_locales self with
  | Some old => set_locales old
  | None => raise (AttributeError "old_locales")
  end.

End metadata_locale.

(** [with metadata_locale(...): body].  [__exit__] returns [None], so an
    exception of the body is raised again after it; an exception of
    [__exit__] itself takes its place. *)
Definition with_metadata_locale (locales : list locale_spec) (body : M unit) : M unit :=
  fun w =>
    match metadata_locale.__enter__ (metadata_locale.__init__ locales) w with
    | (Raise e, w1) => (Raise e, w1)
    | (Ok self, w1) =>
        match body w1 with
        | (Ok _, w2) => metadata_locale.__exit__ self w2
        | (Raise e, w2) =>
            match metadata_locale.__exit__ self w2 with
            | (Ok _, w3) => (Raise e, w3)
            | (Raise e', w3) => (Raise e', w3)
            end
        end
    end.

(** *** generate_local_dict *)

(** A value of the [__dict__] of a module of indicators: an instance of
    [Indicator] or [Indicator2D], or anything else. *)
Inductive module_member : Type :=
| AnIndicator (indicator : Indicator)
| NotAnIndicator.

(** What [generate_local_dict] reads of the package [xclim]: the values of
    the three modules of indicators, and the table
    [xclim.utils.Indicator._attrs_mapping], a parameter translated to its
    default text. *)
Record Xclim : Type := {
  atmos : list module_member;
  land : list module_member;
  seaIce : list module_member;
  _attrs_mapping : list (string * string)
}.

(** [for x in l: acc = body(acc, x)] for a body that only computes. *)
Fixpoint res_fold {A S : Type} (l : list A) (body : S -> A -> res S) (acc : S) : res S :=
  match l with
  | [] => Ok acc
  | x :: l' => res_bind (body acc x) (res_fold l' body)
  end.

(** The key of an indicator in locale data: the second component of its
    module path, a dot, its identifier. *)
Definition ind_name_of (indicator : Indicator) : res string :=
  res_bind (item (split "." (__module__ indicator)) 1)
    (fun sub => Ok (sub +:+ "." +:+ identifier indicator)).

(** The body of the loop over the values of a module. *)
Definition register_member (known : list (string * Indicator)) (member : module_member)
  : res (list (string * Indicator)) :=
  match member with
  | NotAnIndicator => Ok known
  | AnIndicator indicator =>
      res_bind (ind_name_of indicator)
        (fun ind_name => Ok (dict_set ind_name indicator known))
  end.

(** The dictionary [indicators] after the loops over the three modules. *)
Definition known_indicators (xc : Xclim) : res (list (string * Indicator)) :=
  res_fold [atmos xc; land xc; seaIce xc]
    (fun known module => res_fold module register_member known) [].

(** [m.setdefault(k, v)], as the dictionary it leaves. *)
Definition setdefault {V : Type} (k : string) (v : V) (m : gmap string V)
  : gmap string V :=
  match m !! k with
  | Some _ => m
  | None => <[k := v]> m
  end.

(** The loop that pops from the loaded data every key that is no known
    indicator; ["attrs_mapping"] is a key like the others. *)
Definition prune (known : list (string * Indicator)) (attrs : locale_dict)
  : locale_dict :=
  {| attrs_mapping :=
       if str_in "attrs_mapping" (map fst known) then attrs_mapping attrs else None;
     indicators :=
       base.filter (fun kv => str_in (fst kv) (map fst known) = true)
         (indicators attrs) |}.

(** One turn of the loop over [TRANSLATABLE_ATTRS]; the state is the
    entry of the indicator and the variable [eng_attr].  Attributes are
    strings here, so the test [isinstance(eng_attr, str)] holds. *)
Definition fill_attr (indicator : Indicator) (init_english : bool)
    (st : gmap string string * string) (translatable_attr : string)
  : res (gmap string string * string) :=
  res_bind
    (if init_english then getattr indicator translatable_attr else Ok (snd st))
    (fun eng_attr => Ok (setdefault translatable_attr eng_attr (fst st), eng_attr)).

(** One turn of the loop over the known indicators; the state is the
    entries of the indicators and the variable [eng_attr]. *)
Definition fill_indicator (init_english : bool)
    (st : gmap string (gmap string string) * string) (kv : string * Indicator)
  : res (gmap string (gmap string string) * string) :=
  res_bind
    (res_fold TRANSLATABLE_ATTRS (fill_attr (snd kv) init_english)
       (default ∅ (fst st !! fst kv), snd st))
    (fun r => Ok (<[fst kv := fst r]> (fst st), snd r)).

(** The attributes mapping after the three [setdefault] steps. *)
Definition default_attrs_mapping (xc : Xclim) (attrs : locale_dict)
  : gmap string (list string) :=
  fold_left (fun m kv => setdefault (fst kv) [snd kv] m) (_attrs_mapping xc)
    (setdefault "modifiers" [EmptyString] (default ∅ (attrs_mapping attrs))).

Definition generate_local_dict (xc : Xclim) (locale : string) (init_english : bool)
  : M locale_dict :=
  known <- lift (known_indicators xc) ;;
  w <- get_world ;;
  best_locale <- lift (get_best_locale (env w) locale) ;;
  attrs <- match best_locale with
           | Some best =>
               found <- get_local_dict (Tag best) ;;
               ret (prune known (snd found))
           | None => ret {| attrs_mapping := None; indicators := ∅ |}
           end ;;
  let mapping := default_attrs_mapping xc attrs in
  filled <- lift (res_fold known (fill_indicator init_english)
                    (indicators attrs, EmptyString)) ;;
  ret {| attrs_mapping := Some mapping; indicators := fst filled |}.

(** *** growing_degree_days *)

(** A value strictly above the threshold. *)
Definition above (thresh x : Q) : bool := negb (Qle_bool x thresh).

(** The excess over the threshold of the values above it. *)
Definition degree_excess (thresh : Q) (xs : list Q) : list Q :=
  map (fun x => (x - thresh)%Q) (List.filter (above thresh) xs).

(** The values of a period, [None] when one of them is NaN. *)
Fixpoint all_values (period : list (option Q)) : option (list Q) :=
  match period with
  | [] => Some []
  | None :: _ => None
  | Some x :: rest =>
      match all_values rest with
      | Some xs => Some (x :: xs)
      | None => None
      end
  end.

(** Modelled from the spec: [xclim.temperature.growing_degree_days] is not
    among the sources, only its test is.  The series of one location comes
    cut into its resample periods, NaN is [None]; a period with a NaN
    gives NaN, any other the sum of the excess over the threshold of the
    values strictly above it. *)
Definition growing_degree_days (thresh : Q) (periods : list (list (option Q)))
  : list (option Q) :=
  map (fun period =>
         match all_values period with
         | Some xs => Some (fold_right Qplus 0%Q (degree_excess thresh xs))
         | None => None
         end)
      periods.

(** ** Predicates of the specification *)

(** An entry [set_locales] refuses: a tag that does not resolve, or a pair
    whose path is not a file. *)
Definition invalid_entry (e : Env) (locale : locale_spec) : Prop :=
  match locale with
  | Tag t => get_best_locale e t = Ok None
  | Pair _ (FromPath p) => is_file e p = false
  | Pair _ (FromDict _) => False
  end.

(** As many modifiers as translations, for every key. *)
Definition same_cardinality (s : TranslatableStr.t) : Prop :=
  match TranslatableStr.translations s with
  | Some tr =>
      map_Forall
        (fun _ values => length (TranslatableStr.modifiers s) = length values) tr
  | None => True
  end.

(** Locale data whose token entries are as long as its modifiers entry,
    taken as the single empty modifier when that is absent. *)
Definition aligned (d : locale_dict) : Prop :=
  match attrs_mapping d with
  | Some m =>
      map_Forall
        (fun k values =>
           k <> "modifiers" ->
           length (default [EmptyString] (m !! "modifiers")) = length values) m
  | None => True
  end.

(** A value [format] has no reason to translate: not a string, a string
    that does not open with a brace, or [{token}] for an unknown token. *)
Definition plain_value (tr : gmap string (list string)) (val : pyval) : Prop :=
  match val with
  | PObj _ => True
  | PStr s =>
      startswith "{" s = false \/
      exists token, s = "{" +:+ token +:+ "}" /\ tr !! token = None
  end.

(** ** Data of the examples *)

Definition no_data : locale_dict :=
  {| attrs_mapping := Some ∅; indicators := ∅ |}.

(** The locales of the docstring of [get_best_locale]. *)
Definition doc_env : Env :=
  {| pkg := [("__init__.py", Malformed); ("fr.json", Json no_data);
             ("fr-BE.json", Json no_data); ("en-US.json", Json no_data)];
     fs := [("/tmp/mine.json", Json no_data)] |}.

Definition doc_world (registry : list locale_spec) : World :=
  {| env := doc_env; LOCALES := registry; log := [] |}.

(** A block that removes every file of the file system. *)
Definition remove_files : M unit :=
  fun w =>
    (Ok tt, {| env := {| pkg := pkg (env w); fs := [] |};
               LOCALES := LOCALES w; log := log w |}).

(** The indicator of the docstring of the module. *)
Definition dtrvar : Indicator :=
  {| __module__ := "xclim.atmos"; identifier := "dtrvar";
     attr := fun name =>
       if String.eqb name "long_name" then Some "Mean diurnal range variability"
       else Some EmptyString |}.

(** Locale data with one translation where there are two modifiers. *)
Definition short_entry : locale_dict :=
  {| attrs_mapping := Some (<["YS" := ["annuel"]]> {[ "modifiers" := [EmptyString; "_f"] ]});
     indicators := {[ "atmos.dtrvar" := {[ "long_name" := "Variabilite" ]} ]} |}.

(** Locale data with as many translations as modifiers. *)
Definition full_entry : locale_dict :=
  {| attrs_mapping :=
       Some (<["YS" := ["annuel"; "annuelle"]]> {[ "modifiers" := [EmptyString; "_f"] ]});
     indicators := {[ "atmos.dtrvar" := {[ "long_name" := "Variabilite" ]} ]} |}.

(** An indicator whose module path has no dot. *)
Definition stray : Indicator :=
  {| __module__ := "atmos"; identifier := "tg_mean"; attr := fun _ => None |}.

(** A package with one indicator and the frequencies of the docstring. *)
Definition doc_xclim : Xclim :=
  {| atmos := [NotAnIndicator; AnIndicator dtrvar];
     land := [];
     seaIce := [];
     _attrs_mapping := [("YS", "annual"); ("MS", "monthly")] |}.

(** Locale files where [fr.json] holds a stale entry and a translation. *)
Definition stale_env : Env :=
  {| pkg := [("fr.json",
              Json {| attrs_mapping :=
                        Some (<["YS" := ["annuel"; "annuelle"]]>
                                {[ "modifiers" := [EmptyString; "_f"] ]});
                      indicators :=
                        <["atmos.gone" := {[ "title" := "Parti" ]}]>
                          {[ "atmos.dtrvar" := {[ "long_name" := "Variabilite" ]} ]} |});
             ("fr.CA.json", Malformed)];
     fs := [] |}.

Definition stale_world : World := {| env := stale_env; LOCALES := []; log := [] |}.

(** The dictionary of a run of [generate_local_dict], empty data when it
    raised. *)
Definition generated (run : res locale_dict * World) : locale_dict :=
  match fst run with
  | Ok d => d
  | Raise _ => no_data
  end.

Definition nice : gmap string (list string) := {[ "nice" := ["beau"; "belle"] ]}.

Definition x_is (template : string) : TranslatableStr.t :=
  TranslatableStr.__init__ template (Some nice) ["_m"; "_f"].

(** ** Provenance of the values of [get_local_attrs]

    An entry of the result comes from one attribute name and one of the
    locales: the key is the name, followed by the tag the locale resolved
    to when tags are appended; the value wraps the translation of the
    locale data or, when there is none, the attribute of the indicator,
    with the table and the modifiers of the locale data. *)
Definition built_by (indicator : Indicator) (names : option (list string))
    (fill_missing append_locale_name : bool) (e : Env) (locales : list locale_spec)
    (kv : string * TranslatableStr.t) : Prop :=
  exists name locale w1 found w2 sub local_attrs mapping fallback,
    In name TRANSLATABLE_ATTRS /\
    match names with None => True | Some ns => In name ns end /\
    In locale locales /\
    env w1 = e /\
    get_local_dict locale w1 = (Ok found, w2) /\
    item (split "." (__module__ indicator)) 1 = Ok sub /\
    indicators (snd found) !! (sub +:+ "." +:+ identifier indicator) = Some local_attrs /\
    attrs_mapping (snd found) = Some mapping /\
    getattr indicator name = Ok fallback /\
    (fill_missing = true \/ is_Some (local_attrs !! name)) /\
    fst kv = name +:+ (if append_locale_name then "_" +:+ fst found else EmptyString) /\
    snd kv = TranslatableStr.__init__ (default fallback (local_attrs !! name))
               (Some (delete "modifiers" mapping))
               (default [EmptyString] (mapping !! "modifiers")).

(** A state that differs from another by new entries of the log at
    most. *)
Definition only_logs (w w' : World) : Prop :=
  env w' = env w /\ LOCALES w' = LOCALES w /\ exists added, log w' = log w ++ added.

(** ** Properties *)

(** *** Strings and dictionaries *)

Lemma split_nonempty (sep : ascii) (s : string) : split sep s <> [].
Proof.
  destruct s as [|c s]; simpl; [discriminate|].
  destruct (Ascii.eqb c sep); [discriminate|].
  destruct (split sep s); discriminate.
Qed.

Lemma split_head_no_sep (sep : ascii) (s : string) :
  split_head sep (split_head sep s) = split_head sep s.
Proof.
  unfold split_head.
  induction s as [|c s IH]; simpl; [reflexivity|].
  destruct (Ascii.eqb c sep) eqn:E; simpl; [reflexivity|].
  destruct (split sep s) as [|h t] eqn:Hs.
  - simpl. rewrite E. reflexivity.
  - simpl. rewrite E.
    destruct (split sep h) as [|h' t'] eqn:Hh; [destruct (split_nonempty _ _ Hh)|].
    congruence.
Qed.

Lemma str_in_In (x : string) (l : list string) : str_in x l = true <-> In x l.
Proof.
  unfold str_in. rewrite existsb_exists. split.
  - intros (y & Hy & E). apply String.eqb_eq in E. congruence.
  - intros H. exists x. split; [assumption | apply String.eqb_refl].
Qed.

Lemma str_in_not_In (x : string) (l : list string) : str_in x l = false <-> ~ In x l.
Proof.
  rewrite <- str_in_In. destruct (str_in x l); split; intros; congruence.
Qed.

Lemma drop_last_snoc (s : string) (c : ascii) :
  drop_last (s +:+ String c EmptyString) = s.
Proof.
  induction s as [|a s IH]; simpl; [reflexivity|].
  rewrite IH. destruct s; reflexivity.
Qed.

Lemma slice_braces (token : string) : slice_1_m1 ("{" +:+ token +:+ "}") = token.
Proof. simpl. apply drop_last_snoc. Qed.

Lemma dict_get_set_eq {V : Type} (k : string) (v : V) (d : list (string * V)) :
  dict_get k (dict_set k v d) = Some v.
Proof.
  induction d as [|[k' v'] d IH]; simpl.
  - rewrite String.eqb_refl. reflexivity.
  - destruct (String.eqb k k') eqn:E; simpl; rewrite E; auto.
Qed.

Lemma dict_get_set_ne {V : Type} (k k' : string) (v : V) (d : list (string * V)) :
  k <> k' -> dict_get k (dict_set k' v d) = dict_get k d.
Proof.
  intros Hne. induction d as [|[k2 v2] d IH]; simpl.
  - apply String.eqb_neq in Hne. rewrite Hne. reflexivity.
  - destruct (String.eqb k' k2) eqn:E; simpl.
    + apply String.eqb_eq in E. subst k2.
      apply String.eqb_neq in Hne. rewrite Hne. reflexivity.
    + rewrite IH. reflexivity.
Qed.

Lemma dict_get_update_ne {V : Type} (k : string) (d2 d : list (string * V)) :
  (forall kv, In kv d2 -> fst kv <> k) ->
  dict_get k (dict_update d d2) = dict_get k d.
Proof.
  unfold dict_update. revert d.
  induction d2 as [|[k2 v2] d2 IH]; intros d H; simpl; [reflexivity|].
  rewrite IH.
  - apply dict_get_set_ne. intros ->. apply (H (k2, v2)); [left|]; reflexivity.
  - intros kv Hkv. apply H. right. assumption.
Qed.

Lemma dict_set_keeps {V : Type} (k k' : string) (v : V) (d : list (string * V)) :
  dict_get k d <> None -> dict_get k (dict_set k' v d) <> None.
Proof.
  intros H. destruct (String.eqb_spec k k') as [->|Hne].
  - rewrite dict_get_set_eq. discriminate.
  - rewrite dict_get_set_ne; assumption.
Qed.

Lemma dict_update_keeps {V : Type} (k : string) (d2 d : list (string * V)) :
  dict_get k d <> None -> dict_get k (dict_update d d2) <> None.
Proof.
  unfold dict_update. revert d.
  induction d2 as [|[k2 v2] d2 IH]; intros d H; simpl; [assumption|].
  apply IH. apply dict_set_keeps. assumption.
Qed.

Lemma dict_set_In {V : Type} (k : string) (v : V) (d : list (string * V)) kv :
  In kv (dict_set k v d) -> fst kv = k \/ In kv d.
Proof.
  induction d as [|[k' v'] d IH]; simpl.
  - intros [<-|[]]. left. reflexivity.
  - destruct (String.eqb k k') eqn:E; simpl.
    + apply String.eqb_eq in E. subst k'. intros [<-|H]; auto.
    + intros [<-|H]; auto. destruct (IH H); auto.
Qed.

Lemma dict_update_keys {V : Type} (d2 d : list (string * V)) kv :
  In kv (dict_update d d2) -> (exists kv', In kv' d2 /\ fst kv' = fst kv) \/ In kv d.
Proof.
  unfold dict_update. revert d.
  induction d2 as [|[k2 v2] d2 IH]; intros d; simpl; [auto|].
  intros H. destruct (IH _ H) as [(kv' & Hin & E)|Hin].
  - left. exists kv'. auto.
  - apply dict_set_In in Hin. destruct Hin as [E|Hin]; [|auto].
    left. exists (k2, v2). auto.
Qed.

Lemma dict_set_Forall {V : Type} (P : V -> Prop) (k : string) (v : V)
    (d : list (string * V)) :
  P v -> Forall (fun kv => P (snd kv)) d ->
  Forall (fun kv => P (snd kv)) (dict_set k v d).
Proof.
  intros Hv. induction 1 as [|[k' v'] d Hk Hd IH]; simpl.
  - constructor; [assumption | constructor].
  - destruct (String.eqb k k'); constructor; auto.
Qed.

(** *** get_best_locale *)

Lemma item_filter_head (p : string -> bool) (l before after : list string) (x : string) :
  l = before ++ x :: after ->
  Forall (fun y => p y = false) before ->
  p x = true ->
  item (List.filter p l) 0 = Ok x.
Proof.
  intros -> Hb Hx. induction Hb as [|y before Hy Hb IH]; simpl.
  - rewrite Hx. reflexivity.
  - rewrite Hy. exact IH.
Qed.

Lemma filter_of_member (p : string -> bool) (l : list string) (x : string) :
  In x l -> p x = true ->
  exists before y after,
    l = before ++ y :: after /\ Forall (fun z => p z = false) before /\ p y = true.
Proof.
  induction l as [|a l IH]; intros Hin Hx; [destruct Hin|].
  destruct (p a) eqn:Ha.
  - exists [], a, l. repeat split; [constructor | assumption].
  - destruct Hin as [->|Hin]; [congruence|].
    destruct (IH Hin Hx) as (before & y & after & -> & Hb & Hy).
    exists (a :: before), y, after. repeat split; [constructor|]; assumption.
Qed.

Lemma get_best_locale_total (e : Env) (locale : string) :
  exists best, get_best_locale e locale = Ok best.
Proof.
  unfold get_best_locale.
  destruct (str_in locale (list_locales e)); [eauto|].
  destruct (str_in (split_head "-" locale) (list_locales e)); [eauto|].
  destruct (str_in _ (map _ _)) eqn:E; [|eauto].
  apply str_in_In, in_map_iff in E. destruct E as (av & Hav & Hin).
  destruct (filter_of_member
              (fun av => String.eqb (split_head "-" av) (split_head "-" locale))
              _ av Hin) as (before & y & after & Hl & Hb & Hy).
  { rewrite Hav. apply String.eqb_refl. }
  rewrite (item_filter_head _ _ _ _ _ Hl Hb Hy). simpl. eauto.
Qed.

(** C6: [get_best_locale] returns the requested tag when it is available;
    otherwise its prefix before the first dash when that is available;
    otherwise the first available locale, in the order of the listing,
    whose own prefix is the requested prefix; and [None] exactly when no
    available locale has the requested prefix. *)
Theorem get_best_locale_spec (e : Env) (locale : string) :
  (In locale (list_locales e) -> get_best_locale e locale = Ok (Some locale)) /\
  (~ In locale (list_locales e) -> In (split_head "-" locale) (list_locales e) ->
   get_best_locale e locale = Ok (Some (split_head "-" locale))) /\
  (~ In locale (list_locales e) -> ~ In (split_head "-" locale) (list_locales e) ->
   forall before av after,
     list_locales e = before ++ av :: after ->
     Forall (fun x => split_head "-" x <> split_head "-" locale) before ->
     split_head "-" av = split_head "-" locale ->
     get_best_locale e locale = Ok (Some av)) /\
  (get_best_locale e locale = Ok None <->
   forall av, In av (list_locales e) -> split_head "-" av <> split_head "-" locale).
Proof.
  set (available := list_locales e). set (prefix := split_head "-" locale).
  unfold get_best_locale. fold available. fold prefix.
  repeat split.
  - intros H. apply str_in_In in H. rewrite H. reflexivity.
  - intros H1 H2. apply str_in_not_In in H1. apply str_in_In in H2.
    rewrite H1, H2. reflexivity.
  - intros H1 H2 before av after Hl Hb Hav.
    apply str_in_not_In in H1. apply str_in_not_In in H2. rewrite H1, H2.
    assert (Hp : str_in prefix (map (split_head "-") available) = true).
    { apply str_in_In, in_map_iff. exists av. split; [assumption|].
      rewrite Hl. apply in_or_app. right. left. reflexivity. }
    rewrite Hp.
    rewrite (item_filter_head _ _ before after av Hl).
    + reflexivity.
    + eapply List.Forall_impl; [|exact Hb]. intros x Hx. apply String.eqb_neq. exact Hx.
    + apply String.eqb_eq. exact Hav.
  - destruct (str_in locale available) eqn:H1; [discriminate|].
    destruct (str_in prefix available) eqn:H2; [discriminate|].
    destruct (str_in prefix (map (split_head "-") available)) eqn:H3.
    + intros H. exfalso.
      apply str_in_In, in_map_iff in H3. destruct H3 as (av & Hav & Hin).
      destruct (filter_of_member
                  (fun av => String.eqb (split_head "-" av) prefix)
                  _ av Hin) as (before & y & after & Hl & Hb & Hy).
      { rewrite Hav. apply String.eqb_refl. }
      rewrite (item_filter_head _ _ _ _ _ Hl Hb Hy) in H. discriminate.
    + intros _ av Hin Hav. apply str_in_not_In in H3. apply H3.
      apply in_map_iff. exists av. split; assumption.
  - intros H.
    destruct (str_in locale available) eqn:H1.
    { apply str_in_In in H1. destruct (H _ H1). reflexivity. }
    destruct (str_in prefix available) eqn:H2.
    { apply str_in_In in H2. destruct (H _ H2). apply split_head_no_sep. }
    destruct (str_in prefix (map (split_head "-") available)) eqn:H3; [|reflexivity].
    apply str_in_In, in_map_iff in H3. destruct H3 as (av & Hav & Hin).
    destruct (H _ Hin Hav).
Qed.

Lemma get_best_locale_spec_witness :
  get_best_locale doc_env "fr-BE" = Ok (Some "fr-BE") /\
  get_best_locale doc_env "fr-CA" = Ok (Some "fr") /\
  get_best_locale doc_env "en-GB" = Ok (Some "en-US") /\
  (forall av, In av (list_locales doc_env) -> split_head "-" av <> "de").
Proof.
  split; [|split; [|split]].
  - apply (proj1 (get_best_locale_spec doc_env "fr-BE")).
    vm_compute. tauto.
  - apply (proj1 (proj2 (get_best_locale_spec doc_env "fr-CA"))).
    + vm_compute. intuition discriminate.
    + vm_compute. tauto.
  - apply (proj1 (proj2 (proj2 (get_best_locale_spec doc_env "en-GB")))
             ltac:(vm_compute; intuition discriminate)
             ltac:(vm_compute; intuition discriminate)
             ["fr"; "fr-BE"] "en-US" []).
    + reflexivity.
    + repeat constructor; vm_compute; discriminate.
    + reflexivity.
  - apply (proj1 (proj2 (proj2 (proj2 (get_best_locale_spec doc_env "de"))))).
    reflexivity.
Defined.

(** *** set_locales *)

Lemma unavailable_spec (e : Env) (locale : locale_spec) :
  (invalid_entry e locale /\ unavailable e locale = Ok true) \/
  (~ invalid_entry e locale /\ unavailable e locale = Ok false).
Proof.
  destruct locale as [t | t [d | p]]; simpl.
  - destruct (get_best_locale_total e t) as ([best|] & H); rewrite H; simpl.
    + right. split; [discriminate | reflexivity].
    + left. split; reflexivity.
  - right. split; [tauto | reflexivity].
  - destruct (is_file e p); simpl.
    + right. split; [discriminate | reflexivity].
    + left. split; reflexivity.
Qed.

Lemma set_locales_check_ok (locale : locale_spec) (w : World) :
  ~ invalid_entry (env w) locale -> set_locales_check locale w = (Ok tt, w).
Proof.
  intros H. unfold set_locales_check, bind, get_world, lift.
  destruct (unavailable_spec (env w) locale) as [[Hi _] | [_ ->]]; [tauto | reflexivity].
Qed.

Lemma set_locales_check_bad (locale : locale_spec) (w : World) :
  invalid_entry (env w) locale ->
  set_locales_check locale w = (Raise (UnavailableLocaleError (Some locale)), w).
Proof.
  intros H. unfold set_locales_check, bind, get_world, lift.
  destruct (unavailable_spec (env w) locale) as [[_ ->] | [Hv _]]; [reflexivity | tauto].
Qed.

Lemma for_each_check_bad (before after : list locale_spec) (bad : locale_spec) (w : World) :
  Forall (fun l => ~ invalid_entry (env w) l) before ->
  invalid_entry (env w) bad ->
  for_each (before ++ bad :: after) set_locales_check w =
  (Raise (UnavailableLocaleError (Some bad)), w).
Proof.
  intros Hb Hbad. induction Hb as [|l before Hl Hb IH]; simpl; unfold bind.
  - rewrite set_locales_check_bad by assumption. reflexivity.
  - rewrite set_locales_check_ok by assumption. exact IH.
Qed.

Lemma for_each_check_ok (locales : list locale_spec) (w : World) :
  Forall (fun l => ~ invalid_entry (env w) l) locales ->
  for_each locales set_locales_check w = (Ok tt, w).
Proof.
  induction 1 as [|l locales Hl Hb IH]; simpl; unfold bind; [reflexivity|].
  rewrite set_locales_check_ok by assumption. exact IH.
Qed.

Lemma first_invalid_entry (e : Env) (locales : list locale_spec) :
  Exists (invalid_entry e) locales ->
  exists before bad after,
    locales = before ++ bad :: after /\
    Forall (fun l => ~ invalid_entry e l) before /\
    invalid_entry e bad.
Proof.
  induction locales as [|l locales IH]; intros H; [inversion H|].
  destruct (unavailable_spec e l) as [[Hi _] | [Hv _]].
  - exists [], l, locales. repeat split; [constructor | assumption].
  - inversion H as [? ? Hl | ? ? Hrest]; subst; [tauto|].
    destruct (IH Hrest) as (before & bad & after & -> & Hb & Hbad).
    exists (l :: before), bad, after. repeat split; [constructor|]; assumption.
Qed.

Lemma set_locales_ok (locales : list locale_spec) (w : World) :
  Forall (fun l => ~ invalid_entry (env w) l) locales ->
  set_locales locales w = (Ok tt, with_registry w locales).
Proof.
  intros H. unfold set_locales, bind. rewrite for_each_check_ok by assumption.
  reflexivity.
Qed.

Lemma set_locales_raises (before after : list locale_spec) (bad : locale_spec)
    (w : World) :
  Forall (fun l => ~ invalid_entry (env w) l) before ->
  invalid_entry (env w) bad ->
  set_locales (before ++ bad :: after) w =
  (Raise (UnavailableLocaleError (Some bad)), w).
Proof.
  intros Hb Hbad. unfold set_locales, bind.
  rewrite for_each_check_bad by assumption. reflexivity.
Qed.

(** C4: when the arguments of [set_locales] hold an invalid entry, the
    call raises [UnavailableLocaleError] on the first of them, in the
    order of the arguments, and leaves the world, [LOCALES] included, as
    it was. *)
Theorem set_locales_all_or_nothing (locales : list locale_spec) (w : World) :
  Exists (invalid_entry (env w)) locales ->
  exists before bad after,
    locales = before ++ bad :: after /\
    Forall (fun l => ~ invalid_entry (env w) l) before /\
    invalid_entry (env w) bad /\
    set_locales locales w = (Raise (UnavailableLocaleError (Some bad)), w).
Proof.
  intros H.
  destruct (first_invalid_entry _ _ H) as (before & bad & after & -> & Hb & Hbad).
  exists before, bad, after. repeat split; try assumption.
  apply set_locales_raises; assumption.
Qed.

Lemma set_locales_all_or_nothing_witness :
  exists before bad after,
    [Tag "fr-CA"; Pair "xx" (FromPath "/tmp/none.json"); Tag "zz"] =
      before ++ bad :: after /\
    Forall (fun l => ~ invalid_entry doc_env l) before /\
    invalid_entry doc_env bad /\
    set_locales [Tag "fr-CA"; Pair "xx" (FromPath "/tmp/none.json"); Tag "zz"]
      (doc_world [Tag "en-US"]) =
    (Raise (UnavailableLocaleError (Some bad)), doc_world [Tag "en-US"]).
Proof.
  apply (set_locales_all_or_nothing
           [Tag "fr-CA"; Pair "xx" (FromPath "/tmp/none.json"); Tag "zz"]
           (doc_world [Tag "en-US"])).
  apply Exists_cons_tl, Exists_cons_hd. reflexivity.
Defined.

(** *** metadata_locale *)

Lemma metadata_locale_enter_ok (locales : list locale_spec) (w : World) :
  Forall (fun l => ~ invalid_entry (env w) l) locales ->
  metadata_locale.__enter__ (metadata_locale.__init__ locales) w =
  (Ok (metadata_locale.Make locales (Some (LOCALES w))), with_registry w locales).
Proof.
  intros H. unfold metadata_locale.__enter__, bind, get_world, ret.
  cbn [metadata_locale.locales metadata_locale.__init__].
  rewrite set_locales_ok by assumption. reflexivity.
Qed.

Lemma metadata_locale_exit_eq (locales old : list locale_spec) (w : World) :
  metadata_locale.__exit__ (metadata_locale.Make locales (Some old)) w =
  set_locales old w.
Proof. reflexivity. Qed.

Lemma metadata_locale_exit_fails (locales : list locale_spec) (body : M unit)
    (w w2 : World) (r : res unit) :
  Forall (fun l => ~ invalid_entry (env w) l) locales ->
  body (with_registry w locales) = (r, w2) ->
  Exists (invalid_entry (env w2)) (LOCALES w) ->
  exists bad,
    In bad (LOCALES w) /\
    with_metadata_locale locales body w =
    (Raise (UnavailableLocaleError (Some bad)), w2).
Proof.
  intros Hin Hbody Hold.
  destruct (first_invalid_entry _ _ Hold) as (before & bad & after & Hl & Hb & Hbad).
  pose proof (set_locales_raises before after bad w2 Hb Hbad) as Hexit.
  rewrite <- Hl in Hexit.
  exists bad. split.
  { rewrite Hl. apply in_or_app. right. left. reflexivity. }
  unfold with_metadata_locale.
  rewrite metadata_locale_enter_ok by assumption. rewrite Hbody.
  destruct r; rewrite metadata_locale_exit_eq, Hexit; reflexivity.
Qed.

(** C5, amended: for a valid override list, when every entry of the
    registry saved on entry still passes the validation of [set_locales]
    as the block ends, the [with] statement ends as the block did, by a
    normal exit or by its exception, and the registry holds what it held
    before entry. *)
Theorem metadata_locale_restores (locales : list locale_spec) (body : M unit)
    (w w2 : World) (r : res unit) :
  Forall (fun l => ~ invalid_entry (env w) l) locales ->
  body (with_registry w locales) = (r, w2) ->
  Forall (fun l => ~ invalid_entry (env w2) l) (LOCALES w) ->
  with_metadata_locale locales body w = (r, with_registry w2 (LOCALES w)).
Proof.
  intros Hin Hbody Hold.
  unfold with_metadata_locale.
  rewrite metadata_locale_enter_ok by assumption. rewrite Hbody.
  destruct r as [[]|e]; rewrite metadata_locale_exit_eq, set_locales_ok by assumption;
    reflexivity.
Qed.

Lemma metadata_locale_restores_witness :
  with_metadata_locale [Tag "fr-CA"] (raise (KeyError "tas")) (doc_world [Tag "en-GB"]) =
  (Raise (KeyError "tas"), doc_world [Tag "en-GB"]) /\
  with_metadata_locale [Tag "fr-CA"] (set_locales [Tag "fr-BE"]) (doc_world [Tag "en-GB"]) =
  (Ok tt, doc_world [Tag "en-GB"]).
Proof.
  split.
  - apply (metadata_locale_restores [Tag "fr-CA"] (raise (KeyError "tas"))
             (doc_world [Tag "en-GB"]) (doc_world [Tag "fr-CA"]) (Raise (KeyError "tas"))).
    + repeat constructor. vm_compute. discriminate.
    + reflexivity.
    + repeat constructor. vm_compute. discriminate.
  - apply (metadata_locale_restores [Tag "fr-CA"] (set_locales [Tag "fr-BE"])
             (doc_world [Tag "en-GB"]) (doc_world [Tag "fr-BE"]) (Ok tt)).
    + repeat constructor. vm_compute. discriminate.
    + reflexivity.
    + repeat constructor. vm_compute. discriminate.
Defined.

(** C5, as stated, fails: a registry holding a tag that does not resolve
    is not restored, and neither is a registry set through [set_locales]
    when the block removes the file one of its entries names; the
    statement then ends in the error of [__exit__] and the override
    stays. *)
Lemma metadata_locale_override_leaks :
  with_metadata_locale [Tag "fr"] (ret tt) (doc_world [Tag "zz"]) =
  (Raise (UnavailableLocaleError (Some (Tag "zz"))), doc_world [Tag "fr"]) /\
  LOCALES (snd (with_metadata_locale [Tag "fr"] (ret tt) (doc_world [Tag "zz"])))
    <> LOCALES (doc_world [Tag "zz"]) /\
  set_locales [Pair "xx" (FromPath "/tmp/mine.json")] (doc_world []) =
  (Ok tt, doc_world [Pair "xx" (FromPath "/tmp/mine.json")]) /\
  fst (with_metadata_locale [Tag "fr"] remove_files
         (doc_world [Pair "xx" (FromPath "/tmp/mine.json")])) =
  Raise (UnavailableLocaleError (Some (Pair "xx" (FromPath "/tmp/mine.json")))) /\
  LOCALES (snd (with_metadata_locale [Tag "fr"] remove_files
                  (doc_world [Pair "xx" (FromPath "/tmp/mine.json")]))) = [Tag "fr"].
Proof.
  split; [reflexivity|]. split; [vm_compute; discriminate|].
  split; [reflexivity|]. split; reflexivity.
Qed.

(** *** get_local_dict *)

Lemma get_local_dict_logs (locale : locale_spec) (w w' : World)
    (r : res (string * locale_dict)) :
  get_local_dict locale w = (r, w') -> w' = logged w (Lookup locale).
Proof.
  unfold get_local_dict, bind, log_event, get_world, lift, ret, raise.
  destruct locale as [t | t [d | p]]; cbn [env logged].
  - destruct (get_best_locale (env w) t) as [[l|]|e]; [|congruence..].
    destruct (load_json _ _); congruence.
  - congruence.
  - destruct (load_json _ _); congruence.
Qed.

(** C10: for a plain tag that does not resolve, [get_local_dict] raises
    [UnavailableLocaleError] built from [None], the result of the
    resolution that has replaced the tag in the variable, so that the
    message reads [Locale None not available]; the requested tag is not
    the argument of the error. *)
Theorem get_local_dict_unresolved (t : string) (w : World) :
  get_best_locale (env w) t = Ok None ->
  get_local_dict (Tag t) w =
    (Raise (UnavailableLocaleError None), logged w (Lookup (Tag t))) /\
  UnavailableLocaleError_message None =
    Some "Locale None not available. Use `xclim.locales.list_locales()` to see available languages." /\
  UnavailableLocaleError None <> UnavailableLocaleError (Some (Tag t)).
Proof.
  intros H. split; [|split; [reflexivity | discriminate]].
  unfold get_local_dict, bind, log_event, get_world, lift, raise.
  cbn [env logged]. rewrite H. reflexivity.
Qed.

Lemma get_local_dict_unresolved_witness :
  get_local_dict (Tag "de-CH") (doc_world []) =
    (Raise (UnavailableLocaleError None), logged (doc_world []) (Lookup (Tag "de-CH"))) /\
  UnavailableLocaleError_message None =
    Some "Locale None not available. Use `xclim.locales.list_locales()` to see available languages." /\
  UnavailableLocaleError None <> UnavailableLocaleError (Some (Tag "de-CH")).
Proof.
  apply (get_local_dict_unresolved "de-CH" (doc_world [])). reflexivity.
Defined.

(** *** get_local_attrs *)

(** C7: with [append_locale_name=False] and more than one locale, given
    in the call or, when none is given, taken from [LOCALES],
    [get_local_attrs] raises [ValueError] and leaves the world as it was:
    the log has no new entry, so no call of [get_local_dict] has been
    made. *)
Theorem get_local_attrs_rejects_many (indicator : Indicator)
    (locales : list locale_spec) (names : option (list string))
    (fill_missing : bool) (w : World) :
  1 < length (match locales with [] => LOCALES w | _ => locales end) ->
  get_local_attrs indicator locales names fill_missing false w =
  (Raise (ValueError
     "`append_locale_name` cannot be False if multiple locales are requested."), w).
Proof.
  intros H. unfold get_local_attrs, bind, get_world.
  apply Nat.ltb_lt in H. rewrite H. reflexivity.
Qed.

Lemma get_local_attrs_rejects_many_witness :
  get_local_attrs {| __module__ := "xclim.atmos"; identifier := "dtrvar";
                     attr := fun _ => None |}
    [] None true false (doc_world [Tag "fr"; Tag "zz"]) =
  (Raise (ValueError
     "`append_locale_name` cannot be False if multiple locales are requested."),
   doc_world [Tag "fr"; Tag "zz"]) /\
  get_local_attrs {| __module__ := "xclim.atmos"; identifier := "dtrvar";
                     attr := fun _ => None |}
    [Tag "fr"; Tag "en"] None true false (doc_world []) =
  (Raise (ValueError
     "`append_locale_name` cannot be False if multiple locales are requested."),
   doc_world []).
Proof.
  split.
  - apply (get_local_attrs_rejects_many _ [] None true (doc_world [Tag "fr"; Tag "zz"])).
    simpl. lia.
  - apply (get_local_attrs_rejects_many _ [Tag "fr"; Tag "en"] None true (doc_world [])).
    simpl. lia.
Defined.

(** *** TranslatableStr.format *)

Lemma format_step_keeps (self : TranslatableStr.t) (tr : gmap string (list string))
    (k : string) (kwargs : list (string * pyval)) (kv : string * pyval) :
  dict_get k kwargs <> None ->
  dict_get k (TranslatableStr.format_step self tr kwargs kv) <> None.
Proof.
  intros H. unfold TranslatableStr.format_step.
  destruct (TranslatableStr.translations_of tr (snd kv)); [|assumption].
  apply dict_update_keeps. assumption.
Qed.

Lemma fold_format_step_keeps (self : TranslatableStr.t)
    (tr : gmap string (list string)) (k : string) (items : list (string * pyval)) :
  forall kwargs,
    dict_get k kwargs <> None ->
    dict_get k (fold_left (TranslatableStr.format_step self tr) items kwargs) <> None.
Proof.
  induction items as [|kv items IH]; intros kwargs H; simpl; [assumption|].
  apply IH. apply format_step_keeps. assumption.
Qed.

(** No keyword is ever taken out of the arguments. *)
Lemma format_kwargs_keeps (self : TranslatableStr.t) (k : string)
    (kwargs : list (string * pyval)) :
  dict_get k kwargs <> None ->
  dict_get k (TranslatableStr.format_kwargs self kwargs) <> None.
Proof.
  unfold TranslatableStr.format_kwargs.
  destruct (TranslatableStr.translations self) as [tr|]; [|auto].
  apply fold_format_step_keeps.
Qed.

Lemma dict_get_In {V : Type} (k : string) (d : list (string * V)) :
  dict_get k d <> None -> exists v, In (k, v) d.
Proof.
  induction d as [|[k' v'] d IH]; simpl; [congruence|].
  destruct (String.eqb_spec k k') as [->|Hne]; intros H.
  - exists v'. left. reflexivity.
  - destruct (IH H) as [v Hv]. exists v. right. assumption.
Qed.

Lemma dict_update_binds {V : Type} (k : string) (v : V) (d2 d : list (string * V)) :
  In (k, v) d2 -> dict_get k (dict_update d d2) <> None.
Proof.
  unfold dict_update. revert d.
  induction d2 as [|[k2 v2] d2 IH]; intros d H; [destruct H|]. simpl.
  destruct H as [[= -> ->] | H]; [|apply IH; assumption].
  apply (dict_update_keeps k d2). rewrite dict_get_set_eq. discriminate.
Qed.

Lemma fold_format_step_expands (self : TranslatableStr.t)
    (tr : gmap string (list string)) (items : list (string * pyval))
    (key : string) (val : pyval) (values : list string) (m t : string) :
  In (key, val) items ->
  TranslatableStr.translations_of tr val = Some values ->
  In (m, t) (combine (TranslatableStr.modifiers self) values) ->
  forall kwargs,
    dict_get (key +:+ m)
      (fold_left (TranslatableStr.format_step self tr) items kwargs) <> None.
Proof.
  intros Hin Hval Hm.
  induction items as [|kv items IH]; intros kwargs; [destruct Hin|]. simpl.
  destruct Hin as [-> | Hin]; [|apply IH; assumption].
  apply fold_format_step_keeps.
  unfold TranslatableStr.format_step. cbn [fst snd]. rewrite Hval.
  assert (Hex : dict_get (key +:+ m) (TranslatableStr.expansion self key values) <> None).
  { unfold TranslatableStr.expansion, dict_of_pairs.
    apply (dict_update_binds _ (PStr t)).
    apply in_map_iff. exists (m, t). split; [reflexivity | assumption]. }
  apply dict_get_In in Hex. destruct Hex as [v Hv].
  apply (dict_update_binds _ v). assumption.
Qed.

(** Every modifier that has a translation beside it gives a keyword of
    the delegated call. *)
Lemma format_kwargs_expands (self : TranslatableStr.t) (tr : gmap string (list string))
    (kwargs : list (string * pyval)) (key : string) (val : pyval)
    (values : list string) (m t : string) :
  TranslatableStr.translations self = Some tr ->
  In (key, val) kwargs ->
  TranslatableStr.translations_of tr val = Some values ->
  In (m, t) (combine (TranslatableStr.modifiers self) values) ->
  dict_get (key +:+ m) (TranslatableStr.format_kwargs self kwargs) <> None.
Proof.
  intros Htr Hin Hval Hm. unfold TranslatableStr.format_kwargs. rewrite Htr.
  apply (fold_format_step_expands self tr kwargs key val values m t); assumption.
Qed.

(** C1, on the code: the call [format(a="{nice}")] on the string
    [X is {a}] hands [a], [a_m] and [a_f] to [str.format]; the keyword [a]
    is still there, with the value it came with, and the result is
    [X is {nice}] where [str.format] without [a] raises [KeyError]. *)
Theorem format_keeps_translated_keyword :
  TranslatableStr.format_kwargs (x_is "X is {a}") [("a", PStr "{nice}")] =
    [("a", PStr "{nice}"); ("a_m", PStr "beau"); ("a_f", PStr "belle")] /\
  TranslatableStr.format (x_is "X is {a}") [] [("a", PStr "{nice}")] =
    Ok "X is {nice}" /\
  str_format "X is {a}" [] [("a_m", PStr "beau"); ("a_f", PStr "belle")] =
    Raise (KeyError "a").
Proof. repeat split. Qed.

(** C2, on the code: on the string [X is {a_m}] with the translations of
    [nice] under the modifiers [_m] and [_f], [format(a="{nice}")] returns
    [X is beau], and [format(a="nice")] raises [KeyError] for [a_m]. *)
Theorem format_untranslated_raises :
  TranslatableStr.format (x_is "X is {a_m}") [] [("a", PStr "{nice}")] =
    Ok "X is beau" /\
  TranslatableStr.format (x_is "X is {a_m}") [] [("a", PStr "nice")] =
    Raise (KeyError "a_m").
Proof. split; reflexivity. Qed.

Lemma plain_value_not_translated (tr : gmap string (list string)) (val : pyval) :
  plain_value tr val -> TranslatableStr.translations_of tr val = None.
Proof.
  destruct val as [s|shown]; simpl; [|reflexivity].
  intros [H | (token & -> & H)].
  - rewrite H. reflexivity.
  - rewrite slice_braces.
    replace (startswith "{" ("{" +:+ token +:+ "}")) with true; [exact H|].
    unfold startswith. simpl. destruct (token +:+ "}"); reflexivity.
Qed.

Lemma expansion_keys (self : TranslatableStr.t) (key : string) (values : list string)
    (kv : string * pyval) :
  In kv (TranslatableStr.expansion self key values) ->
  exists m, In m (TranslatableStr.modifiers self) /\ fst kv = key +:+ m.
Proof.
  unfold TranslatableStr.expansion, dict_of_pairs. intros H.
  apply dict_update_keys in H. destruct H as [(kv' & Hin & E) | []].
  apply in_map_iff in Hin. destruct Hin as ([m v] & <- & Hin).
  exists m. split; [|symmetry; exact E].
  eapply in_combine_l. exact Hin.
Qed.

Lemma fold_format_step_get (self : TranslatableStr.t) (tr : gmap string (list string))
    (key : string) (val : pyval) (items : list (string * pyval)) :
  (forall k' v' m,
     In (k', v') items -> TranslatableStr.translations_of tr v' <> None ->
     In m (TranslatableStr.modifiers self) -> k' +:+ m <> key) ->
  forall kwargs,
    dict_get key kwargs = Some val ->
    dict_get key (fold_left (TranslatableStr.format_step self tr) items kwargs) = Some val.
Proof.
  induction items as [|[k' v'] items IH]; intros Hfree kwargs Hget; simpl; [assumption|].
  apply IH.
  - intros k2 v2 m Hin. apply Hfree. right. assumption.
  - unfold TranslatableStr.format_step. cbn [fst snd].
    destruct (TranslatableStr.translations_of tr v') as [values|] eqn:E; [|assumption].
    rewrite dict_get_update_ne; [assumption|].
    intros kv Hkv. apply expansion_keys in Hkv. destruct Hkv as (m & Hm & ->).
    apply (Hfree k' v' m); [left; reflexivity | rewrite E; discriminate | assumption].
Qed.

(** C3, amended: a keyword argument whose value is not a string, does not
    open with a brace, or is [{token}] for a token that is no key of the
    table, sets off no expansion; it reaches [str.format] with the value
    it came with provided no expanded argument, its keyword followed by a
    modifier, spells the same name.  Without a table the arguments go to
    [str.format] as they are. *)
Theorem format_plain_value_passes (self : TranslatableStr.t)
    (kwargs : list (string * pyval)) :
  (TranslatableStr.translations self = None ->
   TranslatableStr.format_kwargs self kwargs = kwargs) /\
  (forall tr key val,
     TranslatableStr.translations self = Some tr ->
     dict_get key kwargs = Some val ->
     plain_value tr val ->
     (forall kw, TranslatableStr.format_step self tr kw (key, val) = kw) /\
     ((forall k' v' m,
         In (k', v') kwargs -> TranslatableStr.translations_of tr v' <> None ->
         In m (TranslatableStr.modifiers self) -> k' +:+ m <> key) ->
      dict_get key (TranslatableStr.format_kwargs self kwargs) = Some val)).
Proof.
  split.
  - intros H. unfold TranslatableStr.format_kwargs. rewrite H. reflexivity.
  - intros tr key val Htr Hget Hplain. split.
    + intros kw. unfold TranslatableStr.format_step. cbn [snd].
      rewrite plain_value_not_translated by assumption. reflexivity.
    + intros Hfree. unfold TranslatableStr.format_kwargs. rewrite Htr.
      apply fold_format_step_get; assumption.
Qed.

Lemma format_plain_value_passes_witness :
  (forall kw,
     TranslatableStr.format_step (x_is "{b} is {a_m}") nice kw ("b", PStr "{evil}") = kw) /\
  dict_get "b"
    (TranslatableStr.format_kwargs (x_is "{b} is {a_m}")
       [("a", PStr "{nice}"); ("b", PStr "{evil}")]) = Some (PStr "{evil}").
Proof.
  destruct (proj2 (format_plain_value_passes (x_is "{b} is {a_m}")
                     [("a", PStr "{nice}"); ("b", PStr "{evil}")])
              nice "b" (PStr "{evil}") eq_refl eq_refl) as [Hstep Hget].
  - right. exists "evil". split; reflexivity.
  - split; [exact Hstep|]. apply Hget.
    intros k' v' m [E | [E | []]] Htr [<- | [<- | []]];
      inversion E; subst; vm_compute; discriminate.
Defined.

(** C3, as stated, fails: [a_m="plain"] has no brace, yet [str.format]
    receives [a_m="beau"], written by the expansion of [a="{nice}"]; and
    [a="{nice)"], which is not [{token}] for any token, is expanded all
    the same, the closing brace never being looked at. *)
Lemma format_plain_value_overwritten :
  plain_value nice (PStr "plain") /\
  dict_get "a_m"
    (TranslatableStr.format_kwargs (x_is "X is {a_m}")
       [("a", PStr "{nice}"); ("a_m", PStr "plain")]) = Some (PStr "beau") /\
  (forall token, "{nice)" <> "{" +:+ token +:+ "}") /\
  TranslatableStr.format_kwargs (x_is "X is {a_m}") [("a", PStr "{nice)")] =
    [("a", PStr "{nice)"); ("a_m", PStr "beau"); ("a_f", PStr "belle")].
Proof.
  split; [left; reflexivity|]. split; [reflexivity|]. split; [|reflexivity].
  intros token H. cbn in H. injection H as H.
  do 5 (destruct token as [|? token]; cbn in H; [discriminate | injection H as _ H]).
  destruct token; discriminate.
Qed.

(** *** The cardinality of modifiers and translations *)

Lemma for_fold_invariant {A S : Type} (I : S -> World -> Prop) (l : list A)
    (body : S -> A -> M S) :
  (forall x acc w acc' w',
     In x l -> I acc w -> body acc x w = (Ok acc', w') -> I acc' w') ->
  forall acc w acc' w',
    I acc w -> for_fold l body acc w = (Ok acc', w') -> I acc' w'.
Proof.
  induction l as [|x l IH]; intros Hbody acc w acc' w' HI Hrun; simpl in Hrun.
  - unfold ret in Hrun. congruence.
  - unfold bind in Hrun. destruct (body acc x w) as [[acc1|e] w1] eqn:E; [|discriminate].
    apply (IH (fun y a v a' v' Hy => Hbody y a v a' v' (or_intror Hy)) acc1 w1);
      [|assumption].
    apply (Hbody x acc w); [left; reflexivity | assumption | assumption].
Qed.

Lemma aligned_same_cardinality (text : string) (m : gmap string (list string)) :
  map_Forall
    (fun k values =>
       k <> "modifiers" -> length (default [EmptyString] (m !! "modifiers")) = length values) m ->
  same_cardinality
    (TranslatableStr.__init__ text (Some (delete "modifiers" m))
       (default [EmptyString] (m !! "modifiers"))).
Proof.
  intros H k values Hk. cbn [TranslatableStr.modifiers TranslatableStr.__init__].
  apply lookup_delete_Some in Hk. destruct Hk as [Hne Hk].
  apply (H k values Hk). congruence.
Qed.

Lemma get_local_attrs_name_cardinality (indicator : Indicator)
    (names : option (list string)) (fill_missing : bool) (loc_name : string)
    (loc_dict : locale_dict) (local_attrs : gmap string string)
    (attrs attrs' : list (string * TranslatableStr.t)) (name : string) (w w' : World) :
  aligned loc_dict ->
  Forall (fun kv => same_cardinality (snd kv)) attrs ->
  get_local_attrs_name indicator names fill_missing loc_name loc_dict local_attrs
    attrs name w = (Ok attrs', w') ->
  Forall (fun kv => same_cardinality (snd kv)) attrs' /\ w' = w.
Proof.
  intros Hal Hattrs. unfold get_local_attrs_name, bind, lift, ret, aligned in *.
  destruct (_ && _); [|intros [= <- <-]; auto].
  destruct (attrs_mapping loc_dict) as [m|]; [|discriminate].
  destruct (getattr indicator name) as [fallback|e]; [|discriminate].
  intros [= <- <-]. split; [|reflexivity].
  apply (dict_set_Forall same_cardinality); [|assumption].
  apply aligned_same_cardinality. assumption.
Qed.

Lemma get_local_attrs_locale_cardinality (indicator : Indicator)
    (names : option (list string)) (fill_missing append_locale_name : bool)
    (attrs attrs' : list (string * TranslatableStr.t)) (locale : locale_spec)
    (w w' : World) :
  (forall found w2, get_local_dict locale w = (Ok found, w2) -> aligned (snd found)) ->
  Forall (fun kv => same_cardinality (snd kv)) attrs ->
  get_local_attrs_locale indicator names fill_missing append_locale_name attrs locale w =
    (Ok attrs', w') ->
  Forall (fun kv => same_cardinality (snd kv)) attrs' /\ env w' = env w.
Proof.
  intros Hal Hattrs. unfold get_local_attrs_locale, bind.
  destruct (get_local_dict locale w) as [[found|e] w1] eqn:Hdict; [|discriminate].
  pose proof (get_local_dict_logs _ _ _ _ Hdict) as ->.
  specialize (Hal found _ eq_refl).
  unfold lift. destruct (item _ 1) as [sub|e]; [|discriminate].
  destruct (indicators (snd found) !! _) as [local_attrs|].
  - intros Hrun.
    apply (for_fold_invariant
             (fun acc v => Forall (fun kv => same_cardinality (snd kv)) acc /\
                           env v = env w) _ _) in Hrun; [assumption | | auto].
    intros name acc v acc' v' _ [Hacc Hv] Hstep.
    destruct (get_local_attrs_name_cardinality _ _ _ _ _ _ _ _ _ _ _ Hal Hacc Hstep)
      as [Hacc' ->].
    auto.
  - unfold log_event, ret. intros [= <- <-]. auto.
Qed.

(** C8, amended: [TranslatableStr.__init__] keeps the table and the
    modifiers it is given and checks nothing, so the value built has as
    many modifiers as translations under every key exactly when its
    arguments have; the values [get_local_attrs] builds have, whenever the
    token entries of the [attrs_mapping] of every locale dictionary it
    loads are as long as its modifiers entry. *)
Theorem translatable_str_cardinality :
  (forall text tr mods,
     same_cardinality (TranslatableStr.__init__ text (Some tr) mods) <->
     map_Forall (fun _ values => length mods = length values) tr) /\
  (forall indicator locales names fill_missing append_locale_name w attrs w',
     get_local_attrs indicator locales names fill_missing append_locale_name w =
       (Ok attrs, w') ->
     (forall locale w1 found w2,
        In locale (match locales with [] => LOCALES w | _ => locales end) ->
        env w1 = env w ->
        get_local_dict locale w1 = (Ok found, w2) -> aligned (snd found)) ->
     Forall (fun kv => same_cardinality (snd kv)) attrs).
Proof.
  split; [intros; reflexivity|].
  intros indicator locales names fill_missing append_locale_name w attrs w' Hrun Hal.
  unfold get_local_attrs, bind, get_world in Hrun.
  destruct (_ && _); [discriminate|].
  apply (for_fold_invariant
           (fun acc v => Forall (fun kv => same_cardinality (snd kv)) acc /\
                         env v = env w) _ _) in Hrun; [tauto | | auto].
  intros locale acc v acc' v' Hin [Hacc Hv] Hstep.
  destruct (get_local_attrs_locale_cardinality _ _ _ _ _ _ _ _ _
              (fun found w2 => Hal locale v found w2 Hin Hv) Hacc Hstep)
    as [Hacc' Henv].
  split; [assumption | congruence].
Qed.

Lemma aligned_full_entry : aligned full_entry.
Proof.
  intros k values Hk Hne.
  apply lookup_insert_Some in Hk. destruct Hk as [[<- <-] | [_ Hk]]; [reflexivity|].
  apply lookup_singleton_Some in Hk. destruct Hk as [<- _]. congruence.
Qed.

Lemma translatable_str_cardinality_witness :
  Forall (fun kv => same_cardinality (snd kv))
    (match fst (get_local_attrs dtrvar [Pair "fr" (FromDict full_entry)] None true true
                  (doc_world [])) with
     | Ok attrs => attrs
     | Raise _ => []
     end) /\
  fst (get_local_attrs dtrvar [Pair "fr" (FromDict full_entry)] None true true
         (doc_world [])) =
  Ok [("long_name_fr",
       TranslatableStr.__init__ "Variabilite"
         (Some (delete "modifiers" (<["YS" := ["annuel"; "annuelle"]]>
                                      {[ "modifiers" := [EmptyString; "_f"] ]})))
         [EmptyString; "_f"]);
      ("description_fr",
       TranslatableStr.__init__ EmptyString
         (Some (delete "modifiers" (<["YS" := ["annuel"; "annuelle"]]>
                                      {[ "modifiers" := [EmptyString; "_f"] ]})))
         [EmptyString; "_f"]);
      ("comment_fr",
       TranslatableStr.__init__ EmptyString
         (Some (delete "modifiers" (<["YS" := ["annuel"; "annuelle"]]>
                                      {[ "modifiers" := [EmptyString; "_f"] ]})))
         [EmptyString; "_f"]);
      ("title_fr",
       TranslatableStr.__init__ EmptyString
         (Some (delete "modifiers" (<["YS" := ["annuel"; "annuelle"]]>
                                      {[ "modifiers" := [EmptyString; "_f"] ]})))
         [EmptyString; "_f"])].
Proof.
  split; [|vm_compute; reflexivity].
  destruct (get_local_attrs dtrvar [Pair "fr" (FromDict full_entry)] None true true
              (doc_world [])) as [[attrs|e] w'] eqn:Hrun; [|constructor].
  apply (proj2 translatable_str_cardinality _ _ _ _ _ _ _ _ Hrun).
  intros locale w1 found w2 [<- | []] _ Hdict.
  unfold get_local_dict, bind, log_event, get_world, ret in Hdict.
  injection Hdict as <- _. exact aligned_full_entry.
Defined.

(** C8, as stated, fails: the constructor accepts two modifiers with a
    single translation, and [get_local_attrs] builds such a value from
    locale data whose [YS] entry is shorter than its modifiers entry. *)
Lemma translatable_str_cardinality_broken :
  ~ same_cardinality
      (TranslatableStr.__init__ "X is {a_m}" (Some {[ "nice" := ["beau"] ]}) ["_m"; "_f"]) /\
  exists ts,
    dict_get "long_name_fr"
      (match fst (get_local_attrs dtrvar [Pair "fr" (FromDict short_entry)] None true true
                    (doc_world [])) with
       | Ok attrs => attrs
       | Raise _ => []
       end) = Some ts /\
    TranslatableStr.modifiers ts = [EmptyString; "_f"] /\
    (exists tr, TranslatableStr.translations ts = Some tr /\ tr !! "YS" = Some ["annuel"]) /\
    ~ same_cardinality ts.
Proof.
  split.
  - intros H. specialize (H "nice" ["beau"] eq_refl). discriminate.
  - eexists. split; [vm_compute; reflexivity|].
    split; [reflexivity|]. split.
    + eexists. split; reflexivity.
    + intros H. specialize (H "YS" ["annuel"] eq_refl). discriminate.
Qed.

(** *** growing_degree_days *)

Lemma above_iff (thresh x : Q) : above thresh x = true <-> (thresh < x)%Q.
Proof.
  unfold above. destruct (Qle_bool x thresh) eqn:E; simpl.
  - apply Qle_bool_iff in E. split; [discriminate | lra].
  - split; [|reflexivity]. intros _.
    destruct (Qlt_le_dec thresh x) as [H|H]; [assumption|].
    apply Qle_bool_iff in H. congruence.
Qed.

Lemma above_false_iff (thresh x : Q) : above thresh x = false <-> (x <= thresh)%Q.
Proof.
  unfold above. destruct (Qle_bool x thresh) eqn:E; simpl.
  - apply Qle_bool_iff in E. tauto.
  - split; [discriminate|]. intros H. apply Qle_bool_iff in H. congruence.
Qed.

(** C9: for one period holding [T+1], [T+2] and [T-1],
    [growing_degree_days] with threshold [T] gives one value, equal to 3;
    the contributions summed are 1 and 2, the value below the threshold
    contributing none. *)
Theorem growing_degree_days_scenario (T : Q) :
  exists total,
    growing_degree_days T [[Some (T + 1); Some (T + 2); Some (T - 1)]]%Q = [Some total] /\
    (total == 3)%Q /\
    Forall2 Qeq (degree_excess T [T + 1; T + 2; T - 1]%Q) [1; 2]%Q.
Proof.
  assert (H1 : above T (T + 1) = true) by (apply above_iff; lra).
  assert (H2 : above T (T + 2) = true) by (apply above_iff; lra).
  assert (H3 : above T (T - 1) = false) by (apply above_false_iff; lra).
  assert (E : degree_excess T [T + 1; T + 2; T - 1]%Q = [T + 1 - T; T + 2 - T]%Q).
  { unfold degree_excess. cbn [List.filter]. rewrite H1, H2, H3. reflexivity. }
  exists (fold_right Qplus 0%Q [T + 1 - T; T + 2 - T]%Q). split; [|split].
  - unfold growing_degree_days. cbn [map all_values]. rewrite E. reflexivity.
  - cbn [fold_right]. lra.
  - rewrite E. repeat constructor; lra.
Qed.


(** ** Further properties *)

(** *** list_locales *)

Lemma split_head_free (sep : ascii) (s : string) : free_of sep (split_head sep s) = true.
Proof.
  unfold split_head. induction s as [|c s IH]; simpl; [reflexivity|].
  destruct (Ascii.eqb c sep) eqn:E; [reflexivity|].
  destruct (split sep s) as [|h t]; simpl; rewrite E; simpl; [reflexivity | exact IH].
Qed.

Lemma split_head_prefix (sep : ascii) (t rest : string) :
  free_of sep t = true -> split_head sep (t +:+ String sep rest) = t.
Proof.
  unfold split_head. induction t as [|c t IH]; simpl.
  - rewrite Ascii.eqb_refl. reflexivity.
  - intros H. apply andb_prop in H. destruct H as [Hc Ht].
    apply negb_true_iff in Hc. rewrite Hc.
    specialize (IH Ht).
    destruct (split sep (t +:+ String sep rest)) as [|h l] eqn:E;
      [destruct (split_nonempty _ _ E) | congruence].
Qed.

Lemma endswith_refl (p : string) : endswith p p = true.
Proof. destruct p; cbn [endswith]; rewrite String.eqb_refl; reflexivity. Qed.

Lemma endswith_append (p t : string) : endswith p (t +:+ p) = true.
Proof.
  induction t as [|c t IH]; [apply endswith_refl|].
  change (endswith p (String c t +:+ p))
    with (String.eqb (String c (t +:+ p)) p || endswith p (t +:+ p)).
  rewrite IH. apply orb_true_r.
Qed.

(** X1: every tag [list_locales] returns is free of dots, and a dot-free
    tag [t] is returned as soon as the package lists a file [t.json]. *)
Theorem list_locales_tags (e : Env) (t : string) :
  (In t (list_locales e) -> free_of "." t = true) /\
  (free_of "." t = true -> In (t +:+ ".json") (map fst (pkg e)) ->
   In t (list_locales e)).
Proof.
  unfold list_locales. split.
  - intros H. apply in_map_iff in H. destruct H as (name & <- & _).
    apply split_head_free.
  - intros Hfree Hin. apply in_map_iff. exists (t +:+ ".json"). split.
    + apply (split_head_prefix "." t "json"). exact Hfree.
    + apply filter_In. split; [exact Hin | apply endswith_append].
Qed.

Lemma list_locales_tags_witness :
  free_of "." "fr-BE" = true /\ In "en-US" (list_locales doc_env).
Proof.
  split.
  - apply (proj1 (list_locales_tags doc_env "fr-BE")). vm_compute. tauto.
  - apply (proj2 (list_locales_tags doc_env "en-US")); [reflexivity|].
    vm_compute. tauto.
Defined.

(** *** get_best_locale *)

Lemma get_best_locale_result (e : Env) (locale : string) :
  match get_best_locale e locale with
  | Ok (Some best) =>
      In best (list_locales e) /\ split_head "-" best = split_head "-" locale
  | Ok None => True
  | Raise _ => False
  end.
Proof.
  unfold get_best_locale.
  destruct (str_in locale (list_locales e)) eqn:H1.
  { apply str_in_In in H1. auto. }
  destruct (str_in (split_head "-" locale) (list_locales e)) eqn:H2.
  { apply str_in_In in H2. split; [exact H2 | apply split_head_no_sep]. }
  destruct (str_in _ (map _ _)) eqn:H3; [|exact I].
  apply str_in_In, in_map_iff in H3. destruct H3 as (av & Hav & Hin).
  destruct (filter_of_member
              (fun av => String.eqb (split_head "-" av) (split_head "-" locale))
              _ av Hin) as (before & y & after & Hl & Hb & Hy).
  { rewrite Hav. apply String.eqb_refl. }
  rewrite (item_filter_head _ _ _ _ _ Hl Hb Hy). simpl.
  split; [|apply String.eqb_eq; exact Hy].
  rewrite Hl. apply in_or_app. right. left. reflexivity.
Qed.

(** X2: [get_best_locale] never raises, the index [[0]] being guarded; a
    locale it returns is one of the available ones and has the prefix of
    the requested tag. *)
Theorem get_best_locale_sound (e : Env) (locale : string) :
  match get_best_locale e locale with
  | Ok (Some best) =>
      In best (list_locales e) /\ split_head "-" best = split_head "-" locale
  | Ok None => True
  | Raise _ => False
  end.
Proof. exact (get_best_locale_result e locale). Qed.

(** X3: resolving a resolved locale gives it back. *)
Theorem get_best_locale_idempotent (e : Env) (locale best : string) :
  get_best_locale e locale = Ok (Some best) ->
  get_best_locale e best = Ok (Some best).
Proof.
  intros H. pose proof (get_best_locale_result e locale) as Hs. rewrite H in Hs.
  destruct Hs as [Hin _]. unfold get_best_locale.
  apply str_in_In in Hin. rewrite Hin. reflexivity.
Qed.

Lemma get_best_locale_idempotent_witness :
  get_best_locale doc_env "en-US" = Ok (Some "en-US").
Proof.
  apply (get_best_locale_idempotent doc_env "en-GB" "en-US"). reflexivity.
Defined.

(** *** set_locales and get_local_dict *)

Lemma valid_or_invalid (e : Env) (locales : list locale_spec) :
  Forall (fun l => ~ invalid_entry e l) locales \/ Exists (invalid_entry e) locales.
Proof.
  induction locales as [|l locales IH]; [left; constructor|].
  destruct (unavailable_spec e l) as [[Hi _] | [Hv _]].
  - right. apply Exists_cons_hd. exact Hi.
  - destruct IH as [IH | IH]; [left; constructor; assumption|].
    right. apply Exists_cons_tl. exact IH.
Qed.

(** X4: [set_locales] succeeds exactly when no argument is invalid, and
    then the registry holds the arguments, in their order, and nothing
    else of the state has changed. *)
Theorem set_locales_accepts (locales : list locale_spec) (w : World) :
  Forall (fun l => ~ invalid_entry (env w) l) locales <->
  set_locales locales w = (Ok tt, with_registry w locales).
Proof.
  split; [apply set_locales_ok|].
  intros H. destruct (valid_or_invalid (env w) locales) as [Hv | Hi]; [exact Hv|].
  destruct (first_invalid_entry _ _ Hi) as (before & bad & after & -> & Hb & Hbad).
  rewrite set_locales_raises in H by assumption. discriminate.
Qed.

Lemma set_locales_accepts_witness :
  set_locales [Tag "en-GB"; Pair "xx" (FromPath "/tmp/mine.json")] (doc_world [Tag "fr"]) =
  (Ok tt, doc_world [Tag "en-GB"; Pair "xx" (FromPath "/tmp/mine.json")]).
Proof.
  apply (proj1 (set_locales_accepts
                  [Tag "en-GB"; Pair "xx" (FromPath "/tmp/mine.json")]
                  (doc_world [Tag "fr"]))).
  repeat constructor; vm_compute; discriminate.
Defined.

(** X5: [set_locales] replaces the registry, it does not add to it: two
    accepted calls in a row leave what the second alone leaves. *)
Theorem set_locales_replaces (first second : list locale_spec) (w : World) :
  Forall (fun l => ~ invalid_entry (env w) l) first ->
  Forall (fun l => ~ invalid_entry (env w) l) second ->
  (set_locales first ;;; set_locales second) w = set_locales second w.
Proof.
  intros H1 H2. unfold bind at 1. rewrite (set_locales_ok first) by assumption.
  rewrite (set_locales_ok second (with_registry w first)) by assumption.
  rewrite (set_locales_ok second w) by assumption. reflexivity.
Qed.

Lemma set_locales_replaces_witness :
  (set_locales [Tag "fr"; Tag "en"] ;;; set_locales [Tag "fr-BE"]) (doc_world []) =
  set_locales [Tag "fr-BE"] (doc_world []).
Proof.
  apply (set_locales_replaces [Tag "fr"; Tag "en"] [Tag "fr-BE"] (doc_world []));
    repeat constructor; vm_compute; discriminate.
Defined.

Lemma load_json_cases (files : list (string * file_content)) (name : string) :
  (exists d, load_json files name = Ok d) \/
  load_json files name = Raise JSONDecodeError \/
  (load_json files name = Raise (FileNotFoundError name) /\ dict_get name files = None).
Proof.
  unfold load_json. destruct (dict_get name files) as [[d|]|]; eauto.
Qed.

Lemma dict_get_of_key {V : Type} (k : string) (d : list (string * V)) :
  In k (map fst d) -> dict_get k d <> None.
Proof.
  induction d as [|[k' v] d IH]; simpl; [tauto|].
  destruct (String.eqb_spec k k') as [->|Hne]; [discriminate|].
  intros [E | H]; [congruence | apply IH; exact H].
Qed.

Lemma is_file_listed (e : Env) (p : string) :
  is_file e p = true -> In p (map fst (fs e)).
Proof.
  unfold is_file. rewrite existsb_exists. intros (f & Hf & E).
  apply String.eqb_eq in E. subst p. apply in_map. exact Hf.
Qed.

Lemma get_local_dict_tag (t : string) (w : World) (best : string) :
  get_best_locale (env w) t = Ok (Some best) ->
  fst (get_local_dict (Tag t) w) =
  res_bind (load_json (pkg (env w)) (best +:+ ".json")) (fun d => Ok (best, d)).
Proof.
  intros H. unfold get_local_dict, bind, log_event, get_world, lift, ret.
  cbn [env logged]. rewrite H.
  destruct (load_json _ _); reflexivity.
Qed.

Lemma get_local_dict_path (t p : string) (w : World) :
  fst (get_local_dict (Pair t (FromPath p)) w) =
  res_bind (load_json (fs (env w)) p) (fun d => Ok (t, d)).
Proof.
  unfold get_local_dict, bind, log_event, get_world, lift, ret. cbn [env logged].
  destruct (load_json _ _); reflexivity.
Qed.

(** X6: an entry [set_locales] accepts never makes [get_local_dict] raise
    [UnavailableLocaleError]; what is left is data that does not parse
    and, for a plain tag only, a resource that is not there. *)
Theorem accepted_entry_resolves (locale : locale_spec) (w : World) :
  ~ invalid_entry (env w) locale ->
  match fst (get_local_dict locale w) with
  | Ok _ => True
  | Raise JSONDecodeError => True
  | Raise (FileNotFoundError _) => exists t, locale = Tag t
  | Raise _ => False
  end.
Proof.
  intros Hv. destruct locale as [t | t [d | p]].
  - pose proof (get_best_locale_result (env w) t) as Hr. simpl in Hv.
    destruct (get_best_locale (env w) t) as [[best|]|e] eqn:E; [|congruence|destruct Hr].
    rewrite (get_local_dict_tag t w best E).
    destruct (load_json_cases (pkg (env w)) (best +:+ ".json"))
      as [[d ->] | [-> | [-> _]]]; simpl; eauto.
  - exact I.
  - rewrite get_local_dict_path.
    destruct (load_json_cases (fs (env w)) p) as [[d ->] | [-> | [_ Hnone]]]; simpl; auto.
    exfalso. simpl in Hv. apply not_false_is_true in Hv.
    apply is_file_listed, dict_get_of_key in Hv. exact (Hv Hnone).
Qed.

Lemma accepted_entry_resolves_witness :
  match fst (get_local_dict (Tag "fr-CA")
               {| env := stale_env; LOCALES := []; log := [] |}) with
  | Ok _ => True
  | Raise JSONDecodeError => True
  | Raise (FileNotFoundError _) => exists t, Tag "fr-CA" = Tag t
  | Raise _ => False
  end.
Proof.
  apply (accepted_entry_resolves (Tag "fr-CA")
           {| env := stale_env; LOCALES := []; log := [] |}).
  vm_compute. discriminate.
Defined.

(** X7: when every file [*.json] of the package is named by a dot-free
    tag followed by [.json], an accepted entry is loaded unless its data
    does not parse. *)
Theorem accepted_entry_loads (locale : locale_spec) (w : World) :
  (forall name, In name (map fst (pkg (env w))) -> endswith ".json" name = true ->
                name = split_head "." name +:+ ".json") ->
  ~ invalid_entry (env w) locale ->
  (exists found, fst (get_local_dict locale w) = Ok found) \/
  fst (get_local_dict locale w) = Raise JSONDecodeError.
Proof.
  intros Hnames Hv. destruct locale as [t | t [d | p]].
  - pose proof (get_best_locale_result (env w) t) as Hr. simpl in Hv.
    destruct (get_best_locale (env w) t) as [[best|]|e] eqn:E; [|congruence|destruct Hr].
    destruct Hr as [Hin _]. unfold list_locales in Hin.
    apply in_map_iff in Hin. destruct Hin as (name & Hname & Hin).
    apply filter_In in Hin. destruct Hin as [Hin Hjson].
    pose proof (Hnames name Hin Hjson) as Heq. rewrite Hname in Heq. subst name.
    rewrite (get_local_dict_tag t w best E).
    destruct (load_json_cases (pkg (env w)) (best +:+ ".json"))
      as [[d ->] | [-> | [_ Hnone]]]; simpl; eauto.
    exfalso. exact (dict_get_of_key _ _ Hin Hnone).
  - left. eexists. reflexivity.
  - rewrite get_local_dict_path.
    destruct (load_json_cases (fs (env w)) p) as [[d ->] | [-> | [_ Hnone]]]; simpl; eauto.
    exfalso. simpl in Hv. apply not_false_is_true in Hv.
    apply is_file_listed, dict_get_of_key in Hv. exact (Hv Hnone).
Qed.

Lemma accepted_entry_loads_witness :
  (exists found, fst (get_local_dict (Tag "en") (doc_world [])) = Ok found) \/
  fst (get_local_dict (Tag "en") (doc_world [])) = Raise JSONDecodeError.
Proof.
  apply (accepted_entry_loads (Tag "en") (doc_world [])).
  - intros name [<- | [<- | [<- | [<- | []]]]]; vm_compute; congruence.
  - vm_compute. discriminate.
Defined.

(** *** metadata_locale *)

(** X8: with an invalid entry in the override list the [with] statement
    raises on entry: the block is not run, whatever it is, and the state
    is as before. *)
Theorem metadata_locale_refuses (locales : list locale_spec) (w : World) :
  Exists (invalid_entry (env w)) locales ->
  exists bad,
    In bad locales /\ invalid_entry (env w) bad /\
    forall body,
      with_metadata_locale locales body w =
      (Raise (UnavailableLocaleError (Some bad)), w).
Proof.
  intros H.
  destruct (first_invalid_entry _ _ H) as (before & bad & after & -> & Hb & Hbad).
  exists bad. split; [apply in_or_app; right; left; reflexivity|].
  split; [exact Hbad|]. intros body.
  unfold with_metadata_locale, metadata_locale.__enter__, bind, get_world.
  cbn [metadata_locale.locales metadata_locale.__init__].
  rewrite set_locales_raises by assumption. reflexivity.
Qed.

Lemma metadata_locale_refuses_witness :
  exists bad,
    In bad [Tag "fr"; Tag "zz"] /\ invalid_entry doc_env bad /\
    forall body,
      with_metadata_locale [Tag "fr"; Tag "zz"] body (doc_world [Tag "en"]) =
      (Raise (UnavailableLocaleError (Some bad)), doc_world [Tag "en"]).
Proof.
  apply (metadata_locale_refuses [Tag "fr"; Tag "zz"] (doc_world [Tag "en"])).
  apply Exists_cons_tl, Exists_cons_hd. reflexivity.
Defined.

Lemma with_metadata_locale_ok (locales : list locale_spec) (body : M unit)
    (w w2 : World) (r : res unit) :
  Forall (fun l => ~ invalid_entry (env w) l) locales ->
  body (with_registry w locales) = (r, w2) ->
  Forall (fun l => ~ invalid_entry (env w2) l) (LOCALES w) ->
  with_metadata_locale locales body w = (r, with_registry w2 (LOCALES w)).
Proof.
  intros Hin Hbody Hold. unfold with_metadata_locale.
  rewrite metadata_locale_enter_ok by assumption. rewrite Hbody.
  destruct r as [[]|e]; rewrite metadata_locale_exit_eq, set_locales_ok by assumption;
    reflexivity.
Qed.

(** X9: [with] statements nest: when the entries of both override lists
    and of the registry pass validation, also as the block ends, the two
    statements end as the block did and the registry holds what it held
    before the outer one. *)
Theorem metadata_locale_nests (outer inner : list locale_spec) (body : M unit)
    (w w2 : World) (r : res unit) :
  Forall (fun l => ~ invalid_entry (env w) l) outer ->
  Forall (fun l => ~ invalid_entry (env w) l) inner ->
  body (with_registry w inner) = (r, w2) ->
  Forall (fun l => ~ invalid_entry (env w2) l) outer ->
  Forall (fun l => ~ invalid_entry (env w2) l) (LOCALES w) ->
  with_metadata_locale outer (with_metadata_locale inner body) w =
  (r, with_registry w2 (LOCALES w)).
Proof.
  intros Ho Hi Hbody Ho2 Hw2.
  rewrite (with_metadata_locale_ok outer _ w (with_registry w2 outer) r);
    [reflexivity | assumption | | assumption].
  rewrite (with_metadata_locale_ok inner body (with_registry w outer) w2 r);
    [reflexivity | assumption | assumption | assumption].
Qed.

Lemma metadata_locale_nests_witness :
  with_metadata_locale [Tag "fr"]
    (with_metadata_locale [Tag "en"] (raise (KeyError "tas"))) (doc_world [Tag "fr-BE"]) =
  (Raise (KeyError "tas"), doc_world [Tag "fr-BE"]).
Proof.
  apply (metadata_locale_nests [Tag "fr"] [Tag "en"] (raise (KeyError "tas"))
           (doc_world [Tag "fr-BE"]) (doc_world [Tag "en"]) (Raise (KeyError "tas")));
    try reflexivity; repeat constructor; vm_compute; discriminate.
Defined.

(** X10: when an entry of the saved registry no longer passes validation
    as the block ends, the [with] statement raises
    [UnavailableLocaleError] for a saved entry, in place of the exception
    of the block if it had one, and the state stays as the block left
    it. *)
Theorem metadata_locale_exit_masks (locales : list locale_spec) (body : M unit)
    (w w2 : World) (r : res unit) :
  Forall (fun l => ~ invalid_entry (env w) l) locales ->
  body (with_registry w locales) = (r, w2) ->
  Exists (invalid_entry (env w2)) (LOCALES w) ->
  exists bad,
    In bad (LOCALES w) /\ invalid_entry (env w2) bad /\
    with_metadata_locale locales body w =
    (Raise (UnavailableLocaleError (Some bad)), w2).
Proof.
  intros Hin Hbody Hold.
  destruct (first_invalid_entry _ _ Hold) as (before & bad & after & Hl & Hb & Hbad).
  pose proof (set_locales_raises before after bad w2 Hb Hbad) as Hexit.
  rewrite <- Hl in Hexit.
  exists bad. split; [rewrite Hl; apply in_or_app; right; left; reflexivity|].
  split; [exact Hbad|]. unfold with_metadata_locale.
  rewrite metadata_locale_enter_ok by assumption. rewrite Hbody.
  destruct r; rewrite metadata_locale_exit_eq, Hexit; reflexivity.
Qed.

Lemma metadata_locale_exit_masks_witness :
  exists bad,
    In bad [Tag "zz"] /\ invalid_entry doc_env bad /\
    with_metadata_locale [Tag "fr"] (raise (KeyError "tas")) (doc_world [Tag "zz"]) =
    (Raise (UnavailableLocaleError (Some bad)), doc_world [Tag "fr"]).
Proof.
  apply (metadata_locale_exit_masks [Tag "fr"] (raise (KeyError "tas"))
           (doc_world [Tag "zz"]) (doc_world [Tag "fr"]) (Raise (KeyError "tas"))).
  - repeat constructor. vm_compute. discriminate.
  - reflexivity.
  - apply Exists_cons_hd. reflexivity.
Defined.

(** *** TranslatableStr.format *)

Lemma dict_set_keys {V : Type} (k : string) (v : V) (d : list (string * V)) :
  exists extra, map fst (dict_set k v d) = map fst d ++ extra.
Proof.
  induction d as [|[k' v'] d IH]; simpl.
  - exists [k]. reflexivity.
  - destruct (String.eqb k k'); simpl.
    + exists []. rewrite app_nil_r. reflexivity.
    + destruct IH as [extra ->]. exists extra. reflexivity.
Qed.

Lemma dict_update_keys_prefix {V : Type} (d2 d : list (string * V)) :
  exists extra, map fst (dict_update d d2) = map fst d ++ extra.
Proof.
  unfold dict_update. revert d.
  induction d2 as [|[k v] d2 IH]; intros d; simpl.
  - exists []. rewrite app_nil_r. reflexivity.
  - destruct (IH (dict_set k v d)) as [extra ->].
    destruct (dict_set_keys k v d) as [extra' ->].
    exists (extra' ++ extra). rewrite app_assoc. reflexivity.
Qed.

(** X11: the keyword arguments [str.format] receives begin with the
    keywords of the call, all of them and in their order; what the
    translation adds comes after. *)
Theorem format_kwargs_extends (self : TranslatableStr.t)
    (kwargs : list (string * pyval)) :
  exists added,
    map fst (TranslatableStr.format_kwargs self kwargs) = map fst kwargs ++ added.
Proof.
  unfold TranslatableStr.format_kwargs.
  destruct (TranslatableStr.translations self) as [tr|].
  - generalize kwargs at 1 as items. intros items. revert kwargs.
    induction items as [|kv items IH]; intros kwargs; simpl.
    + exists []. rewrite app_nil_r. reflexivity.
    + destruct (IH (TranslatableStr.format_step self tr kwargs kv)) as [added ->].
      unfold TranslatableStr.format_step.
      destruct (TranslatableStr.translations_of tr (snd kv)) as [values|].
      * destruct (dict_update_keys_prefix
                    (TranslatableStr.expansion self (fst kv) values) kwargs)
          as [extra ->].
        exists (extra ++ added). rewrite app_assoc. reflexivity.
      * exists added. reflexivity.
  - exists []. rewrite app_nil_r. reflexivity.
Qed.


Lemma dict_set_NoDup {V : Type} (k : string) (v : V) (d : list (string * V)) :
  List.NoDup (map fst d) -> List.NoDup (map fst (dict_set k v d)).
Proof.
  induction d as [|[k' v'] d IH]; simpl; intros H.
  - constructor; [tauto | constructor].
  - inversion H as [|? ? Hnot Hd]; subst.
    destruct (String.eqb_spec k k') as [->|Hne]; simpl; [constructor; assumption|].
    constructor; [|apply IH; exact Hd].
    intros Hin. apply in_map_iff in Hin. destruct Hin as (kv & E & Hin).
    apply dict_set_In in Hin. destruct Hin as [E' | Hin]; [congruence|].
    apply Hnot. rewrite <- E. apply in_map. exact Hin.
Qed.









(** *** get_local_attrs *)

Lemma dict_set_Forall_kv {V : Type} (P : string * V -> Prop) (k : string) (v : V)
    (d : list (string * V)) :
  P (k, v) -> Forall P d -> Forall P (dict_set k v d).
Proof.
  intros Hv. induction 1 as [|[k' v'] d Hk Hd IH]; simpl.
  - constructor; [assumption | constructor].
  - destruct (String.eqb_spec k k') as [->|Hne]; constructor; auto.
Qed.

Lemma get_local_attrs_name_built (indicator : Indicator) (names : option (list string))
    (fill_missing append_locale_name : bool) (locales : list locale_spec)
    (locale : locale_spec) (w1 w2 : World) (found : string * locale_dict)
    (sub : string) (local_attrs : gmap string string)
    (attrs attrs' : list (string * TranslatableStr.t)) (name : string) (v v' : World) :
  In locale locales ->
  get_local_dict locale w1 = (Ok found, w2) ->
  item (split "." (__module__ indicator)) 1 = Ok sub ->
  indicators (snd found) !! (sub +:+ "." +:+ identifier indicator) = Some local_attrs ->
  In name TRANSLATABLE_ATTRS ->
  Forall (built_by indicator names fill_missing append_locale_name (env w1) locales) attrs ->
  get_local_attrs_name indicator names fill_missing
    (if append_locale_name then "_" +:+ fst found else EmptyString)
    (snd found) local_attrs attrs name v = (Ok attrs', v') ->
  Forall (built_by indicator names fill_missing append_locale_name (env w1) locales) attrs'
  /\ v' = v.
Proof.
  intros Hloc Hdict Hsub Hentry Hname Hattrs.
  unfold get_local_attrs_name, bind, lift, ret.
  destruct (_ && _) eqn:Hcond; [|intros [= <- <-]; auto].
  apply andb_prop in Hcond. destruct Hcond as [Hnames Hfill].
  destruct (attrs_mapping (snd found)) as [mapping|] eqn:Hmap; [|discriminate].
  destruct (getattr indicator name) as [fallback|e] eqn:Hget; [|discriminate].
  intros [= <- <-]. split; [|reflexivity].
  apply dict_set_Forall_kv; [|assumption].
  exists name, locale, w1, found, w2, sub, local_attrs, mapping, fallback.
  repeat split; try assumption; try reflexivity.
  - destruct names as [ns|]; [apply str_in_In; exact Hnames | exact I].
  - apply orb_prop in Hfill. destruct Hfill as [-> | H]; [left; reflexivity|].
    right. apply bool_decide_eq_true in H. exact H.
Qed.

Lemma get_local_attrs_locale_built (indicator : Indicator) (names : option (list string))
    (fill_missing append_locale_name : bool) (locales : list locale_spec)
    (e : Env) (attrs attrs' : list (string * TranslatableStr.t)) (locale : locale_spec)
    (w w' : World) :
  In locale locales ->
  env w = e ->
  Forall (built_by indicator names fill_missing append_locale_name e locales) attrs ->
  get_local_attrs_locale indicator names fill_missing append_locale_name attrs locale w =
    (Ok attrs', w') ->
  Forall (built_by indicator names fill_missing append_locale_name e locales) attrs'
  /\ env w' = e.
Proof.
  intros Hloc <- Hattrs. unfold get_local_attrs_locale, bind.
  destruct (get_local_dict locale w) as [[found|ex] w1] eqn:Hdict; [|discriminate].
  pose proof (get_local_dict_logs _ _ _ _ Hdict) as Hw1.
  unfold lift. destruct (item _ 1) as [sub|ex] eqn:Hsub; [|discriminate].
  destruct (indicators (snd found) !! _) as [local_attrs|] eqn:Hentry.
  - intros Hrun.
    apply (for_fold_invariant
             (fun acc v =>
                Forall (built_by indicator names fill_missing append_locale_name
                          (env w) locales) acc /\ env v = env w) _ _) in Hrun;
      [assumption | | split; [assumption | subst w1; reflexivity]].
    intros name acc v acc' v' Hname [Hacc Hv] Hstep.
    destruct (get_local_attrs_name_built _ _ _ _ _ _ _ _ _ _ _ _ _ _ _ _
                Hloc Hdict Hsub Hentry Hname Hacc Hstep) as [Hacc' ->].
    auto.
  - unfold log_event, ret. intros [= <- <-]. subst w1. auto.
Qed.

Lemma get_local_attrs_built (indicator : Indicator) (locales : list locale_spec)
    (names : option (list string)) (fill_missing append_locale_name : bool)
    (w w' : World) (attrs : list (string * TranslatableStr.t)) :
  get_local_attrs indicator locales names fill_missing append_locale_name w =
    (Ok attrs, w') ->
  Forall (built_by indicator names fill_missing append_locale_name (env w)
            (match locales with [] => LOCALES w | _ => locales end)) attrs.
Proof.
  intros Hrun. unfold get_local_attrs, bind, get_world in Hrun.
  destruct (_ && _); [discriminate|].
  apply (for_fold_invariant
           (fun acc v =>
              Forall (built_by indicator names fill_missing append_locale_name (env w)
                        (match locales with [] => LOCALES w | _ => locales end)) acc /\
              env v = env w) _ _) in Hrun; [tauto | | auto].
  intros locale acc v acc' v' Hin [Hacc Hv] Hstep.
  apply (get_local_attrs_locale_built _ _ _ _ _ _ _ _ _ _ _ Hin Hv Hacc Hstep).
Qed.

Lemma append_empty_r (s : string) : s +:+ EmptyString = s.
Proof.
  induction s as [|c s IH]; [reflexivity|].
  change (String c (s +:+ EmptyString) = String c s). rewrite IH. reflexivity.
Qed.

(** X13: every key of the mapping [get_local_attrs] returns is one of the
    four translatable attribute names, one of [names] when these are
    given; with [append_locale_name] it is followed by an underscore and
    the tag one of the locales resolved to, without it the key is the
    bare name. *)
Theorem get_local_attrs_keys (indicator : Indicator) (locales : list locale_spec)
    (names : option (list string)) (fill_missing append_locale_name : bool)
    (w w' : World) (attrs : list (string * TranslatableStr.t))
    (k : string) (ts : TranslatableStr.t) :
  get_local_attrs indicator locales names fill_missing append_locale_name w =
    (Ok attrs, w') ->
  In (k, ts) attrs ->
  exists name,
    In name TRANSLATABLE_ATTRS /\
    match names with None => True | Some ns => In name ns end /\
    if append_locale_name then
      exists locale w1 found w2,
        In locale (match locales with [] => LOCALES w | _ => locales end) /\
        env w1 = env w /\
        get_local_dict locale w1 = (Ok found, w2) /\
        k = name +:+ "_" +:+ fst found
    else k = name.
Proof.
  intros Hrun Hin. pose proof (get_local_attrs_built _ _ _ _ _ _ _ _ Hrun) as Hall.
  rewrite List.Forall_forall in Hall. specialize (Hall _ Hin).
  destruct Hall as (name & locale & w1 & found & w2 & sub & local_attrs & mapping &
                    fallback & Hname & Hnames & Hloc & Henv & Hdict & _ & _ & _ & _ & _ &
                    Hkey & _).
  exists name. split; [exact Hname|]. split; [exact Hnames|].
  cbn [fst] in Hkey. destruct append_locale_name.
  - exists locale, w1, found, w2. auto.
  - rewrite Hkey. apply append_empty_r.
Qed.

(** X14: in every value [get_local_attrs] returns, the table of
    translations is the attributes mapping of the locale data without its
    entry [modifiers], which is never a token, and the modifiers are that
    entry, or the single empty modifier when the data has none. *)
Theorem get_local_attrs_tables (indicator : Indicator) (locales : list locale_spec)
    (names : option (list string)) (fill_missing append_locale_name : bool)
    (w w' : World) (attrs : list (string * TranslatableStr.t))
    (k : string) (ts : TranslatableStr.t) :
  get_local_attrs indicator locales names fill_missing append_locale_name w =
    (Ok attrs, w') ->
  In (k, ts) attrs ->
  exists locale w1 found w2 mapping tr,
    In locale (match locales with [] => LOCALES w | _ => locales end) /\
    env w1 = env w /\
    get_local_dict locale w1 = (Ok found, w2) /\
    attrs_mapping (snd found) = Some mapping /\
    TranslatableStr.translations ts = Some tr /\
    tr !! "modifiers" = None /\
    (forall token, token <> "modifiers" -> tr !! token = mapping !! token) /\
    TranslatableStr.modifiers ts = default [EmptyString] (mapping !! "modifiers").
Proof.
  intros Hrun Hin. pose proof (get_local_attrs_built _ _ _ _ _ _ _ _ Hrun) as Hall.
  rewrite List.Forall_forall in Hall. specialize (Hall _ Hin).
  destruct Hall as (name & locale & w1 & found & w2 & sub & local_attrs & mapping &
                    fallback & _ & _ & Hloc & Henv & Hdict & _ & _ & Hmap & _ & _ &
                    _ & Hval).
  cbn [snd] in Hval. subst ts.
  exists locale, w1, found, w2, mapping, (delete "modifiers" mapping).
  repeat split; try assumption.
  - apply lookup_delete_eq.
  - intros token Hne. apply lookup_delete_ne. congruence.
Qed.


(** X16: without locales in the call and with an empty registry,
    [get_local_attrs] returns the empty mapping and leaves the state as it
    was, whatever the options. *)
Theorem get_local_attrs_no_locale (indicator : Indicator) (names : option (list string))
    (fill_missing append_locale_name : bool) (w : World) :
  LOCALES w = [] ->
  get_local_attrs indicator [] names fill_missing append_locale_name w = (Ok [], w).
Proof.
  intros H. unfold get_local_attrs, bind, get_world. rewrite H.
  destruct append_locale_name; reflexivity.
Qed.

Lemma get_local_attrs_no_locale_witness :
  get_local_attrs dtrvar [] None false false (doc_world []) = (Ok [], doc_world []).
Proof. apply (get_local_attrs_no_locale dtrvar None false false (doc_world [])). reflexivity. Defined.

Lemma get_local_attrs_keys_witness :
  exists name,
    In name TRANSLATABLE_ATTRS /\
    True /\
    exists locale w1 found w2,
      In locale [Pair "fr" (FromDict full_entry)] /\
      env w1 = doc_env /\
      get_local_dict locale w1 = (Ok found, w2) /\
      "long_name_fr" = name +:+ "_" +:+ fst found.
Proof.
  eapply (get_local_attrs_keys dtrvar [Pair "fr" (FromDict full_entry)] None true true
            (doc_world [])).
  - vm_compute. reflexivity.
  - left. reflexivity.
Defined.

Lemma get_local_attrs_tables_witness :
  exists locale w1 found w2 (mapping tr : gmap string (list string)),
    In locale [Pair "fr" (FromDict full_entry)] /\
    env w1 = doc_env /\
    get_local_dict locale w1 = (Ok found, w2) /\
    attrs_mapping (snd found) = Some mapping /\
    Some (delete "modifiers"
            (<["YS" := ["annuel"; "annuelle"]]> {[ "modifiers" := [EmptyString; "_f"] ]}))
      = Some tr /\
    tr !! "modifiers" = None /\
    (forall token, token <> "modifiers" -> tr !! token = mapping !! token) /\
    [EmptyString; "_f"] = default [EmptyString] (mapping !! "modifiers").
Proof.
  eapply (get_local_attrs_tables dtrvar [Pair "fr" (FromDict full_entry)] None true true
            (doc_world []) _ _ "long_name_fr"
            (TranslatableStr.__init__ "Variabilite"
               (Some (delete "modifiers"
                        (<["YS" := ["annuel"; "annuelle"]]>
                           {[ "modifiers" := [EmptyString; "_f"] ]})))
               [EmptyString; "_f"])).
  - vm_compute. reflexivity.
  - left. reflexivity.
Defined.


Lemma only_logs_refl (w : World) : only_logs w w.
Proof. repeat split. exists []. rewrite app_nil_r. reflexivity. Qed.

Lemma only_logs_trans (a b c : World) : only_logs a b -> only_logs b c -> only_logs a c.
Proof.
  intros (E1 & L1 & l1 & H1) (E2 & L2 & l2 & H2). repeat split; try congruence.
  exists (l1 ++ l2). rewrite H2, H1, app_assoc. reflexivity.
Qed.

Lemma only_logs_logged (w : World) (ev : event) : only_logs w (logged w ev).
Proof. repeat split. exists [ev]. reflexivity. Qed.

Lemma for_fold_only_logs {A S : Type} (l : list A) (body : S -> A -> M S) :
  (forall acc x w, only_logs w (snd (body acc x w))) ->
  forall acc w, only_logs w (snd (for_fold l body acc w)).
Proof.
  intros Hbody. induction l as [|x l IH]; intros acc w; simpl.
  - apply only_logs_refl.
  - unfold bind. pose proof (Hbody acc x w) as Hx.
    destruct (body acc x w) as [[acc1|e] w1]; simpl in Hx; [|exact Hx].
    eapply only_logs_trans; [exact Hx | apply IH].
Qed.

Lemma get_local_attrs_name_world (indicator : Indicator) (names : option (list string))
    (fill_missing : bool) (loc_name : string) (loc_dict : locale_dict)
    (local_attrs : gmap string string) (attrs : list (string * TranslatableStr.t))
    (name : string) (w : World) :
  snd (get_local_attrs_name indicator names fill_missing loc_name loc_dict local_attrs
         attrs name w) = w.
Proof.
  unfold get_local_attrs_name, bind, lift, ret.
  destruct (_ && _); [|reflexivity].
  destruct (attrs_mapping loc_dict); [|reflexivity].
  destruct (getattr indicator name); reflexivity.
Qed.

Lemma get_local_attrs_locale_world (indicator : Indicator) (names : option (list string))
    (fill_missing append_locale_name : bool)
    (attrs : list (string * TranslatableStr.t)) (locale : locale_spec) (w : World) :
  only_logs w
    (snd (get_local_attrs_locale indicator names fill_missing append_locale_name
            attrs locale w)).
Proof.
  unfold get_local_attrs_locale, bind.
  destruct (get_local_dict locale w) as [[found|ex] w1] eqn:Hdict;
    pose proof (get_local_dict_logs _ _ _ _ Hdict) as ->;
    [|apply only_logs_logged].
  unfold lift. destruct (item _ 1) as [sub|ex]; [|apply only_logs_logged].
  destruct (indicators (snd found) !! _) as [local_attrs|].
  - eapply only_logs_trans; [apply only_logs_logged|].
    apply for_fold_only_logs. intros acc name v.
    rewrite get_local_attrs_name_world. apply only_logs_refl.
  - unfold log_event, ret. simpl.
    eapply only_logs_trans; apply only_logs_logged.
Qed.

(** X17: whatever its outcome, [get_local_attrs] leaves the registry and
    the files as they were; the log alone can have grown. *)
Theorem get_local_attrs_reads_only (indicator : Indicator) (locales : list locale_spec)
    (names : option (list string)) (fill_missing append_locale_name : bool) (w : World) :
  only_logs w
    (snd (get_local_attrs indicator locales names fill_missing append_locale_name w)).
Proof.
  unfold get_local_attrs, bind, get_world.
  destruct (_ && _); [apply only_logs_refl|].
  apply for_fold_only_logs. intros acc locale v.
  apply get_local_attrs_locale_world.
Qed.

(** X18: a locale whose data has no entry for the indicator is no error:
    asked for that locale alone, [get_local_attrs] returns the empty
    mapping, and the log holds the lookup and one warning naming the
    indicator and the locale. *)
Theorem get_local_attrs_missing_entry (indicator : Indicator) (locale : locale_spec)
    (names : option (list string)) (fill_missing append_locale_name : bool)
    (w w1 : World) (found : string * locale_dict) (ind_name : string) :
  get_local_dict locale w = (Ok found, w1) ->
  ind_name_of indicator = Ok ind_name ->
  indicators (snd found) !! ind_name = None ->
  get_local_attrs indicator [locale] names fill_missing append_locale_name w =
  (Ok [], logged (logged w (Lookup locale)) (Warning ind_name locale)).
Proof.
  intros Hdict Hname Hnone.
  pose proof (get_local_dict_logs _ _ _ _ Hdict) as Hw1. subst w1.
  unfold get_local_attrs, bind, get_world. cbn [length Nat.ltb Nat.leb].
  rewrite andb_false_r. cbn [for_fold]. unfold bind, get_local_attrs_locale, bind.
  rewrite Hdict. unfold lift. unfold ind_name_of in Hname.
  destruct (item _ 1) as [sub|ex]; [|discriminate]. simpl in Hname.
  injection Hname as <-. rewrite Hnone. reflexivity.
Qed.

Lemma get_local_attrs_missing_entry_witness :
  get_local_attrs dtrvar [Tag "en-GB"] None true true (doc_world []) =
  (Ok [], logged (logged (doc_world []) (Lookup (Tag "en-GB")))
            (Warning "atmos.dtrvar" (Tag "en-GB"))).
Proof.
  eapply (get_local_attrs_missing_entry dtrvar (Tag "en-GB") None true true (doc_world [])).
  - reflexivity.
  - reflexivity.
  - reflexivity.
Defined.

(** *** generate_local_dict *)

Lemma res_fold_invariant {A S : Type} (I : S -> Prop) (l : list A)
    (body : S -> A -> res S) :
  (forall x acc acc', In x l -> I acc -> body acc x = Ok acc' -> I acc') ->
  forall acc acc', I acc -> res_fold l body acc = Ok acc' -> I acc'.
Proof.
  induction l as [|x l IH]; intros Hbody acc acc' HI Hrun; simpl in Hrun.
  - congruence.
  - destruct (body acc x) as [acc1|e] eqn:E; [|discriminate]. simpl in Hrun.
    apply (IH (fun y a a' Hy => Hbody y a a' (or_intror Hy)) acc1); [|assumption].
    apply (Hbody x acc); [left; reflexivity | assumption | assumption].
Qed.

Lemma free_of_dotted (a b : string) : free_of "." (a +:+ "." +:+ b) = false.
Proof.
  induction a as [|c a IH]; [reflexivity|].
  change (negb (Ascii.eqb c ".") && free_of "." (a +:+ "." +:+ b) = false).
  rewrite IH. apply andb_false_r.
Qed.

Lemma ind_name_of_dotted (indicator : Indicator) (ind_name : string) :
  ind_name_of indicator = Ok ind_name -> free_of "." ind_name = false.
Proof.
  unfold ind_name_of. destruct (item _ 1) as [sub|e]; [|discriminate].
  intros [= <-]. apply free_of_dotted.
Qed.

Lemma dict_set_key_iff {V : Type} (k k' : string) (v : V) (d : list (string * V)) :
  In k (map fst (dict_set k' v d)) <-> k = k' \/ In k (map fst d).
Proof.
  induction d as [|[k2 v2] d IH]; simpl.
  - intuition congruence.
  - destruct (String.eqb_spec k' k2) as [->|Hne]; simpl; [intuition congruence|].
    rewrite IH. intuition congruence.
Qed.

(** What the loop over the values of one module leaves in [indicators]. *)
Lemma register_members_spec (members : list module_member) :
  forall known known',
    res_fold members register_member known = Ok known' ->
    (List.NoDup (map fst known) -> List.NoDup (map fst known')) /\
    (Forall (fun kv => ind_name_of (snd kv) = Ok (fst kv)) known ->
     Forall (fun kv => ind_name_of (snd kv) = Ok (fst kv)) known') /\
    (forall k, In k (map fst known') <->
               In k (map fst known) \/
               exists indicator,
                 In (AnIndicator indicator) members /\ ind_name_of indicator = Ok k).
Proof.
  induction members as [|member members IH]; intros known known' Hrun; simpl in Hrun.
  - injection Hrun as <-. repeat split; auto.
    intros [H | (i & [] & _)]. exact H.
  - destruct (register_member known member) as [known1|e] eqn:E; [|discriminate].
    simpl in Hrun. destruct (IH _ _ Hrun) as (Hnd & Hnames & Hkeys).
    destruct member as [indicator|]; simpl in E.
    + destruct (ind_name_of indicator) as [n|e] eqn:En; [|discriminate].
      simpl in E. injection E as <-. split; [|split].
      * intros H. apply Hnd. apply dict_set_NoDup. exact H.
      * intros H. apply Hnames. apply dict_set_Forall_kv; assumption.
      * intros k. rewrite Hkeys, dict_set_key_iff. split.
        -- intros [[-> | H] | (i & Hi & Hn)]; auto.
           ++ right. exists indicator. split; [left; reflexivity | exact En].
           ++ right. exists i. split; [right; exact Hi | exact Hn].
        -- intros [H | (i & [[= <-] | Hi] & Hn)]; auto.
           ++ left. left. congruence.
           ++ right. exists i. auto.
    + injection E as <-. split; [exact Hnd|]. split; [exact Hnames|].
      intros k. rewrite Hkeys. split.
      * intros [H | (i & Hi & Hn)]; auto. right. exists i. split; [right|]; assumption.
      * intros [H | (i & [Hi | Hi] & Hn)]; auto; [discriminate|]. right. exists i. auto.
Qed.

(** The dictionary of the indicators: no key twice, each key the name of
    its indicator, and a key for every indicator of the three modules. *)
Lemma known_indicators_spec (xc : Xclim) (known : list (string * Indicator)) :
  known_indicators xc = Ok known ->
  List.NoDup (map fst known) /\
  Forall (fun kv => ind_name_of (snd kv) = Ok (fst kv)) known /\
  (forall k, In k (map fst known) <->
             exists indicator,
               In (AnIndicator indicator) (atmos xc ++ land xc ++ seaIce xc) /\
               ind_name_of indicator = Ok k).
Proof.
  unfold known_indicators. simpl.
  destruct (res_fold (atmos xc) register_member []) as [k1|e] eqn:E1; [|discriminate].
  simpl. destruct (res_fold (land xc) register_member k1) as [k2|e] eqn:E2; [|discriminate].
  simpl. destruct (res_fold (seaIce xc) register_member k2) as [k3|e] eqn:E3;
    [|discriminate].
  simpl. intros [= <-].
  destruct (register_members_spec _ _ _ E1) as (N1 & F1 & K1).
  destruct (register_members_spec _ _ _ E2) as (N2 & F2 & K2).
  destruct (register_members_spec _ _ _ E3) as (N3 & F3 & K3).
  split; [apply N3, N2, N1; constructor|].
  split; [apply F3, F2, F1; constructor|].
  intros k. rewrite K3, K2, K1. simpl. split.
  - intros [[[[] | (i & Hi & Hn)] | (i & Hi & Hn)] | (i & Hi & Hn)];
      exists i; (split; [|exact Hn]); rewrite !in_app_iff; auto.
  - intros (i & Hi & Hn). rewrite !in_app_iff in Hi.
    destruct Hi as [Hi | [Hi | Hi]]; eauto 6.
Qed.

Lemma known_keys_not_reserved (xc : Xclim) (known : list (string * Indicator)) :
  known_indicators xc = Ok known ->
  str_in "attrs_mapping" (map fst known) = false.
Proof.
  intros H. apply str_in_not_In. intros Hin.
  destruct (known_indicators_spec _ _ H) as (_ & _ & Hkeys).
  apply Hkeys in Hin. destruct Hin as (i & _ & Hn).
  apply ind_name_of_dotted in Hn. discriminate.
Qed.

Lemma lookup_setdefault {V : Type} (k k' : string) (v : V) (m : gmap string V) :
  setdefault k' v m !! k =
  match m !! k with
  | Some x => Some x
  | None => if String.eqb k k' then Some v else None
  end.
Proof.
  unfold setdefault. destruct (String.eqb_spec k k') as [->|Hne].
  - destruct (m !! k') eqn:E; [rewrite E; reflexivity|].
    rewrite lookup_insert_eq. reflexivity.
  - destruct (m !! k') eqn:E.
    + destruct (m !! k); reflexivity.
    + rewrite lookup_insert_ne by congruence. destruct (m !! k); reflexivity.
Qed.

Lemma lookup_setdefaults (l : list (string * string)) :
  forall (m : gmap string (list string)) (k : string),
    fold_left (fun (m : gmap string (list string)) (kv : string * string) =>
                 setdefault (fst kv) [snd kv] m) l m !! k =
    match m !! k with
    | Some x => Some x
    | None => option_map (fun v => [v]) (dict_get k l)
    end.
Proof.
  induction l as [|[k' v'] l IH]; intros m k; simpl.
  - destruct (m !! k); reflexivity.
  - rewrite IH, lookup_setdefault. cbn [fst snd].
    destruct (m !! k); [reflexivity|].
    destruct (String.eqb k k'); reflexivity.
Qed.

(** The run of [generate_local_dict], cut at the data it starts from. *)
Lemma generate_local_dict_run (xc : Xclim) (locale : string) (init_english : bool)
    (w w' : World) (d : locale_dict) :
  generate_local_dict xc locale init_english w = (Ok d, w') ->
  exists known start eng,
    known_indicators xc = Ok known /\
    res_fold known (fill_indicator init_english) (start, EmptyString) =
      Ok (indicators d, eng) /\
    attrs_mapping d =
      Some (default_attrs_mapping xc {| attrs_mapping := None; indicators := start |}) /\
    match get_best_locale (env w) locale with
    | Ok (Some best) =>
        exists found,
          get_local_dict (Tag best) w = (Ok found, w') /\
          start = base.filter (fun kv => str_in (fst kv) (map fst known) = true)
                    (indicators (snd found))
    | Ok None => start = ∅ /\ w' = w
    | Raise _ => False
    end.
Proof.
  unfold generate_local_dict, bind, lift, get_world, ret.
  destruct (known_indicators xc) as [known|e] eqn:Hknown; [|discriminate].
  destruct (get_best_locale (env w) locale) as [[best|]|e]; [| |discriminate].
  - destruct (get_local_dict (Tag best) w) as [[found|e] w1] eqn:Hdict; [|discriminate].
    destruct (res_fold known _ _) as [[filled eng]|e] eqn:Hfill; [|discriminate].
    intros [= <- <-]. exists known, (indicators (prune known (snd found))), eng.
    split; [reflexivity|]. split; [exact Hfill|]. split.
    + cbn [attrs_mapping]. unfold default_attrs_mapping, prune. cbn [attrs_mapping].
      rewrite (known_keys_not_reserved _ _ Hknown). reflexivity.
    + exists found. split; reflexivity.
  - destruct (res_fold known _ _) as [[filled eng]|e] eqn:Hfill; [|discriminate].
    intros [= <- <-]. exists known, ∅, eng. auto.
Qed.

(** X19: whatever the locale file holds under [attrs_mapping], the
    dictionary [generate_local_dict] returns has there the single empty
    modifier and, for every other key, the one-element list of its text
    in [_attrs_mapping], and nothing else: the modifiers and the
    translations of the file do not reach the result. *)
Theorem generate_local_dict_mapping (xc : Xclim) (locale : string)
    (init_english : bool) (w w' : World) (d : locale_dict) :
  generate_local_dict xc locale init_english w = (Ok d, w') ->
  exists m,
    attrs_mapping d = Some m /\
    m !! "modifiers" = Some [EmptyString] /\
    (forall k, k <> "modifiers" ->
               m !! k = option_map (fun v => [v]) (dict_get k (_attrs_mapping xc))) /\
    aligned d.
Proof.
  intros Hrun.
  destruct (generate_local_dict_run _ _ _ _ _ _ Hrun) as (known & start & eng & _ & _ &
                                                           Hmap & _).
  unfold default_attrs_mapping in Hmap. cbn [attrs_mapping default] in Hmap.
  eexists. split; [exact Hmap|].
  assert (Hmod : forall k,
            setdefault "modifiers" [EmptyString] (∅ : gmap string (list string)) !! k =
            if String.eqb k "modifiers" then Some [EmptyString] else None).
  { intros k. rewrite lookup_setdefault, lookup_empty. reflexivity. }
  split; [|split].
  - rewrite lookup_setdefaults, Hmod. reflexivity.
  - intros k Hne. rewrite lookup_setdefaults, Hmod.
    apply String.eqb_neq in Hne. rewrite Hne. reflexivity.
  - unfold aligned. rewrite Hmap. intros k values Hk Hne.
    rewrite lookup_setdefaults, Hmod in Hk |- *. cbn [String.eqb default].
    apply String.eqb_neq in Hne. rewrite Hne in Hk.
    destruct (dict_get k (_attrs_mapping xc)); simpl in Hk; [|discriminate].
    injection Hk as <-. reflexivity.
Qed.

Lemma generate_local_dict_mapping_witness :
  exists m,
    attrs_mapping (generated (generate_local_dict doc_xclim "fr-CA" true stale_world))
      = Some m /\
    m !! "modifiers" = Some [EmptyString] /\
    (forall k, k <> "modifiers" ->
               m !! k = option_map (fun v => [v]) (dict_get k (_attrs_mapping doc_xclim))) /\
    aligned (generated (generate_local_dict doc_xclim "fr-CA" true stale_world)).
Proof.
  apply (generate_local_dict_mapping doc_xclim "fr-CA" true stale_world
           (snd (generate_local_dict doc_xclim "fr-CA" true stale_world))).
  vm_compute. reflexivity.
Defined.

(** What the loop over the attribute names leaves in the entry of an
    indicator. *)
Lemma fill_attrs_spec (indicator : Indicator) (init_english : bool) (l : list string) :
  forall (e0 e1 : gmap string string) (eng0 eng1 : string),
    res_fold l (fill_attr indicator init_english) (e0, eng0) = Ok (e1, eng1) ->
    (forall a s, e0 !! a = Some s -> e1 !! a = Some s) /\
    (forall a, In a l -> e0 !! a = None ->
               e1 !! a = Some (if init_english then default EmptyString (attr indicator a)
                               else eng0)) /\
    (forall a, ~ In a l -> e1 !! a = e0 !! a) /\
    (init_english = false -> eng1 = eng0).
Proof.
  induction l as [|a0 l IH]; intros e0 e1 eng0 eng1 Hrun; simpl in Hrun.
  - injection Hrun as <- <-. repeat split; auto. intros a [].
  - unfold fill_attr at 1 in Hrun. cbn [fst snd] in Hrun.
    set (v := if init_english then getattr indicator a0 else Ok eng0) in Hrun.
    destruct v as [v0|e] eqn:Hv; [|discriminate]. simpl in Hrun.
    destruct (IH _ _ _ _ Hrun) as (Hkeep & Hfill & Hout & Heng).
    assert (Hv0 : v0 = if init_english then default EmptyString (attr indicator a0)
                       else eng0).
    { subst v. destruct init_english; [|congruence].
      unfold getattr in Hv. destruct (attr indicator a0); [|discriminate].
      simpl. congruence. }
    assert (Heng0 : init_english = false -> v0 = eng0).
    { intros ->. exact Hv0. }
    split; [|split; [|split]].
    + intros a s Ha. apply Hkeep. rewrite lookup_setdefault, Ha. reflexivity.
    + intros a Hin Ha. destruct (String.eqb_spec a a0) as [->|Hne].
      * rewrite (Hkeep a0 v0); [rewrite Hv0; reflexivity|].
        rewrite lookup_setdefault, Ha, String.eqb_refl. reflexivity.
      * destruct Hin as [E | Hin]; [congruence|].
        rewrite (Hfill a Hin).
        -- destruct init_english; [reflexivity|]. rewrite Heng0; reflexivity.
        -- rewrite lookup_setdefault, Ha.
           apply String.eqb_neq in Hne. rewrite Hne. reflexivity.
    + intros a Hnot. rewrite Hout by (intros H; apply Hnot; right; exact H).
      rewrite lookup_setdefault.
      destruct (String.eqb_spec a a0) as [->|Hne]; [destruct Hnot; left; reflexivity|].
      destruct (e0 !! a); reflexivity.
    + intros Hie. rewrite (Heng Hie). apply Heng0. exact Hie.
Qed.

(** What the loop over the known indicators leaves in the entries. *)
Lemma fill_indicators_spec (init_english : bool) (l : list (string * Indicator)) :
  forall (m0 m1 : gmap string (gmap string string)) (eng0 eng1 : string),
    List.NoDup (map fst l) ->
    res_fold l (fill_indicator init_english) (m0, eng0) = Ok (m1, eng1) ->
    (forall k, ~ In k (map fst l) -> m1 !! k = m0 !! k) /\
    (forall k indicator,
       In (k, indicator) l ->
       exists entry,
         m1 !! k = Some entry /\
         (forall a s, default ∅ (m0 !! k) !! a = Some s -> entry !! a = Some s) /\
         (forall a, In a TRANSLATABLE_ATTRS -> default ∅ (m0 !! k) !! a = None ->
                    entry !! a =
                    Some (if init_english then default EmptyString (attr indicator a)
                          else eng0)) /\
         (forall a, ~ In a TRANSLATABLE_ATTRS -> entry !! a = default ∅ (m0 !! k) !! a)) /\
    (init_english = false -> eng1 = eng0).
Proof.
  induction l as [|[k0 i0] l IH]; intros m0 m1 eng0 eng1 Hnd Hrun; simpl in Hrun.
  - injection Hrun as <- <-. repeat split; auto. intros k i [].
  - unfold fill_indicator at 1 in Hrun. cbn [fst snd] in Hrun.
    destruct (res_fold TRANSLATABLE_ATTRS (fill_attr i0 init_english)
                (default ∅ (m0 !! k0), eng0)) as [[e1 eng']|e] eqn:Hentry;
      [|discriminate].
    cbn [res_bind fst snd] in Hrun.
    simpl in Hnd. inversion Hnd as [|? ? Hnot Hl]; subst.
    destruct (IH _ _ _ _ Hl Hrun) as (Hout & Hin & Heng).
    destruct (fill_attrs_spec _ _ _ _ _ _ _ Hentry) as (Hkeep & Hfill & Hrest & Heng').
    split; [|split].
    + intros k Hk. rewrite Hout by (intros H; apply Hk; right; exact H).
      apply lookup_insert_ne. intros ->. apply Hk. left. reflexivity.
    + intros k i [[= -> ->] | Hki].
      * exists e1. split; [rewrite (Hout _ Hnot); apply lookup_insert_eq|].
        split; [exact Hkeep|]. split; [exact Hfill | exact Hrest].
      * assert (Hne : k0 <> k).
        { intros ->. apply Hnot. apply in_map_iff. exists (k, i). auto. }
        destruct (Hin k i Hki) as (entry & Hm1 & H1 & H2 & H3).
        rewrite lookup_insert_ne in H1, H2, H3 by exact Hne.
        exists entry. split; [exact Hm1|]. split; [exact H1|]. split; [|exact H3].
        intros a Ha Hnone. rewrite (H2 a Ha Hnone).
        destruct init_english; [reflexivity|]. rewrite Heng'; reflexivity.
    + intros Hie. rewrite (Heng Hie). apply Heng'. exact Hie.
Qed.

Lemma start_lookup (known : list (string * Indicator))
    (m : gmap string (gmap string string)) (k : string) :
  base.filter (fun kv => str_in (fst kv) (map fst known) = true) m !! k =
  if str_in k (map fst known) then m !! k else None.
Proof.
  destruct (str_in k (map fst known)) eqn:E.
  - destruct (m !! k) as [x|] eqn:Hk.
    + apply map_lookup_filter_Some. split; assumption.
    + apply map_lookup_filter_None. left. exact Hk.
  - apply map_lookup_filter_None. right. intros x _. simpl. congruence.
Qed.

(** X20: the dictionary [generate_local_dict] returns has an entry for
    every indicator of the three modules and for nothing else: entries of
    the locale file that name no indicator are gone. *)
Theorem generate_local_dict_entries (xc : Xclim) (locale : string)
    (init_english : bool) (w w' : World) (d : locale_dict) (k : string) :
  generate_local_dict xc locale init_english w = (Ok d, w') ->
  (is_Some (indicators d !! k) <->
   exists indicator,
     In (AnIndicator indicator) (atmos xc ++ land xc ++ seaIce xc) /\
     ind_name_of indicator = Ok k).
Proof.
  intros Hrun.
  destruct (generate_local_dict_run _ _ _ _ _ _ Hrun)
    as (known & start & eng & Hknown & Hfill & _ & Hstart).
  destruct (known_indicators_spec _ _ Hknown) as (Hnd & _ & Hkeys).
  destruct (fill_indicators_spec _ _ _ _ _ _ Hnd Hfill) as (Hout & Hin & _).
  rewrite <- Hkeys. split.
  - intros Hsome. destruct (str_in k (map fst known)) eqn:E; [apply str_in_In; exact E|].
    exfalso. apply str_in_not_In in E. rewrite (Hout k E) in Hsome.
    destruct (get_best_locale (env w) locale) as [[best|]|e]; [| |contradiction].
    + destruct Hstart as (found & _ & ->). rewrite start_lookup in Hsome.
      apply str_in_not_In in E. rewrite E in Hsome. destruct Hsome. discriminate.
    + destruct Hstart as [-> _]. rewrite lookup_empty in Hsome.
      destruct Hsome. discriminate.
  - intros Hk. apply in_map_iff in Hk. destruct Hk as ([k' i] & <- & Hki).
    cbn [fst]. destruct (Hin _ _ Hki) as (entry & -> & _). eexists. reflexivity.
Qed.

Lemma generate_local_dict_entries_witness :
  is_Some (indicators (generated (generate_local_dict doc_xclim "fr-CA" true stale_world))
             !! "atmos.dtrvar") <->
  exists indicator,
    In (AnIndicator indicator) (atmos doc_xclim ++ land doc_xclim ++ seaIce doc_xclim) /\
    ind_name_of indicator = Ok "atmos.dtrvar".
Proof.
  apply (generate_local_dict_entries doc_xclim "fr-CA" true stale_world
           (snd (generate_local_dict doc_xclim "fr-CA" true stale_world))).
  vm_compute. reflexivity.
Defined.

(** X21: every entry of the dictionary [generate_local_dict] returns
    holds the four translatable attributes. *)
Theorem generate_local_dict_complete (xc : Xclim) (locale : string)
    (init_english : bool) (w w' : World) (d : locale_dict)
    (k a : string) (entry : gmap string string) :
  generate_local_dict xc locale init_english w = (Ok d, w') ->
  indicators d !! k = Some entry ->
  In a TRANSLATABLE_ATTRS ->
  is_Some (entry !! a).
Proof.
  intros Hrun Hentry Ha.
  destruct (generate_local_dict_run _ _ _ _ _ _ Hrun)
    as (known & start & eng & Hknown & Hfill & _ & Hstart).
  destruct (known_indicators_spec _ _ Hknown) as (Hnd & _ & Hkeys).
  destruct (fill_indicators_spec _ _ _ _ _ _ Hnd Hfill) as (Hout & Hin & _).
  destruct (str_in k (map fst known)) eqn:E.
  - apply str_in_In, in_map_iff in E. destruct E as ([k' i] & <- & Hki).
    destruct (Hin _ _ Hki) as (entry' & Hm & Hkeep & Hnew & _).
    cbn [fst] in Hentry. rewrite Hm in Hentry. injection Hentry as <-.
    destruct (default ∅ (start !! k') !! a) as [s|] eqn:Hold.
    + rewrite (Hkeep a s Hold). eexists. reflexivity.
    + rewrite (Hnew a Ha Hold). eexists. reflexivity.
  - exfalso. pose proof E as E'. apply str_in_not_In in E.
    rewrite (Hout k E) in Hentry.
    destruct (get_best_locale (env w) locale) as [[best|]|e]; [| |contradiction].
    + destruct Hstart as (found & _ & ->). rewrite start_lookup, E' in Hentry.
      discriminate.
    + destruct Hstart as [-> _]. rewrite lookup_empty in Hentry. discriminate.
Qed.

Lemma generate_local_dict_complete_witness :
  is_Some (({[ "long_name" := "Variabilite" ]} : gmap string string) !! "long_name") /\
  (forall entry,
     indicators (generated (generate_local_dict doc_xclim "de" false stale_world))
       !! "atmos.dtrvar" = Some entry ->
     is_Some (entry !! "title")).
Proof.
  split; [eexists; reflexivity|]. intros entry Hentry.
  apply (generate_local_dict_complete doc_xclim "de" false stale_world
           (snd (generate_local_dict doc_xclim "de" false stale_world))
           (generated (generate_local_dict doc_xclim "de" false stale_world))
           "atmos.dtrvar" "title" entry).
  - vm_compute. reflexivity.
  - exact Hentry.
  - vm_compute. tauto.
Defined.

(** X22: a text the file of the resolved locale holds for an indicator of
    the three modules is still there, under the same attribute, in the
    dictionary [generate_local_dict] returns, with or without
    [init_english]. *)
Theorem generate_local_dict_keeps (xc : Xclim) (locale best : string)
    (init_english : bool) (w w1 w' : World) (found : string * locale_dict)
    (d : locale_dict) (k a text : string) (old : gmap string string) :
  get_best_locale (env w) locale = Ok (Some best) ->
  get_local_dict (Tag best) w = (Ok found, w1) ->
  generate_local_dict xc locale init_english w = (Ok d, w') ->
  (exists indicator,
     In (AnIndicator indicator) (atmos xc ++ land xc ++ seaIce xc) /\
     ind_name_of indicator = Ok k) ->
  indicators (snd found) !! k = Some old ->
  old !! a = Some text ->
  exists entry, indicators d !! k = Some entry /\ entry !! a = Some text.
Proof.
  intros Hbest Hdict Hrun Hmember Hold Htext.
  destruct (generate_local_dict_run _ _ _ _ _ _ Hrun)
    as (known & start & eng & Hknown & Hfill & _ & Hstart).
  rewrite Hbest in Hstart. destruct Hstart as (found' & Hdict' & ->).
  rewrite Hdict in Hdict'. injection Hdict' as <- _.
  destruct (known_indicators_spec _ _ Hknown) as (Hnd & _ & Hkeys).
  destruct (fill_indicators_spec _ _ _ _ _ _ Hnd Hfill) as (_ & Hin & _).
  apply Hkeys in Hmember. pose proof Hmember as Hk. apply str_in_In in Hk.
  apply in_map_iff in Hmember. destruct Hmember as ([k' i] & E & Hki).
  cbn [fst] in E. subst k'.
  destruct (Hin _ _ Hki) as (entry & Hm & Hkeep & _).
  exists entry. split; [exact Hm|]. apply Hkeep.
  rewrite start_lookup, Hk, Hold. exact Htext.
Qed.

Lemma generate_local_dict_keeps_witness :
  exists entry,
    indicators (generated (generate_local_dict doc_xclim "fr-CA" true stale_world))
      !! "atmos.dtrvar" = Some entry /\
    entry !! "long_name" = Some "Variabilite".
Proof.
  eapply (generate_local_dict_keeps doc_xclim "fr-CA" "fr" true stale_world _
            (snd (generate_local_dict doc_xclim "fr-CA" true stale_world))).
  - reflexivity.
  - vm_compute. reflexivity.
  - vm_compute. reflexivity.
  - exists dtrvar. split; [right; left; reflexivity | reflexivity].
  - vm_compute. reflexivity.
  - reflexivity.
Defined.



Lemma res_fold_raises {A S : Type} (P : exn -> Prop) (l : list A)
    (body : S -> A -> res S) :
  (forall acc x e, body acc x = Raise e -> P e) ->
  forall acc e, res_fold l body acc = Raise e -> P e.
Proof.
  intros Hbody. induction l as [|x l IH]; intros acc e; simpl; [discriminate|].
  destruct (body acc x) as [acc1|e1] eqn:E; simpl.
  - apply IH.
  - intros [= <-]. eapply Hbody. exact E.
Qed.

Lemma known_indicators_raises (xc : Xclim) (e : exn) :
  known_indicators xc = Raise e -> e = IndexError.
Proof.
  unfold known_indicators.
  apply (res_fold_raises (fun e => e = IndexError)).
  intros acc module e1. apply (res_fold_raises (fun e => e = IndexError)).
  intros known [indicator|] e2; simpl; [|discriminate].
  unfold ind_name_of, item. destruct (nth_error _ 1); simpl; [discriminate|].
  intros [= <-]. reflexivity.
Qed.

Lemma fill_indicators_raises (init_english : bool) (l : list (string * Indicator))
    (st : gmap string (gmap string string) * string) (e : exn) :
  res_fold l (fill_indicator init_english) st = Raise e ->
  init_english = true /\ exists name, e = AttributeError name.
Proof.
  apply (res_fold_raises
           (fun e => init_english = true /\ exists name, e = AttributeError name)).
  intros acc kv e1. unfold fill_indicator.
  destruct (res_fold TRANSLATABLE_ATTRS _ _) as [r|e2] eqn:E; simpl; [discriminate|].
  intros [= <-]. revert E.
  apply (res_fold_raises
           (fun e => init_english = true /\ exists name, e = AttributeError name)).
  intros st1 a e3. unfold fill_attr.
  destruct init_english; simpl; [|discriminate].
  unfold getattr. destruct (attr (snd kv) a); simpl; [discriminate|].
  intros [= <-]. eauto.
Qed.

(** X24: [generate_local_dict] never raises [UnavailableLocaleError].
    What it can raise is [IndexError] for an indicator whose module path
    has no dot, an error of the file of the resolved locale and, with
    [init_english] only, [AttributeError]. *)
Theorem generate_local_dict_errors (xc : Xclim) (locale : string)
    (init_english : bool) (w : World) :
  match fst (generate_local_dict xc locale init_english w) with
  | Ok _ => True
  | Raise IndexError => True
  | Raise (FileNotFoundError _) => True
  | Raise JSONDecodeError => True
  | Raise (AttributeError _) => init_english = true
  | Raise _ => False
  end.
Proof.
  unfold generate_local_dict, bind, lift, get_world, ret.
  destruct (known_indicators xc) as [known|e] eqn:Hknown.
  2:{ apply known_indicators_raises in Hknown. subst e. exact I. }
  pose proof (get_best_locale_result (env w) locale) as Hres.
  destruct (get_best_locale (env w) locale) as [[best|]|e] eqn:Hbest; [| |destruct Hres].
  - destruct Hres as [Hin _].
    assert (Hbest' : get_best_locale (env w) best = Ok (Some best)).
    { unfold get_best_locale. apply str_in_In in Hin. rewrite Hin. reflexivity. }
    pose proof (get_local_dict_tag best w best Hbest') as Hdict.
    destruct (get_local_dict (Tag best) w) as [[found|e] w1]; simpl in Hdict.
    + destruct (res_fold known _ _) as [[filled eng]|e] eqn:Hfill; [exact I|].
      apply fill_indicators_raises in Hfill. destruct Hfill as [-> [name ->]].
      reflexivity.
    + destruct (load_json_cases (pkg (env w)) (best +:+ ".json"))
        as [[d Hd] | [Hd | [Hd _]]]; rewrite Hd in Hdict; simpl in Hdict;
        [discriminate | injection Hdict as ->; exact I | injection Hdict as ->; exact I].
  - destruct (res_fold known _ _) as [[filled eng]|e] eqn:Hfill; [exact I|].
    apply fill_indicators_raises in Hfill. destruct Hfill as [-> [name ->]].
    reflexivity.
Qed.
